(** * calendar_push_sa_multi: the push-driven calendar sync relay

    A shallow embedding of [calendar_push_sa_multi.py].  The program keeps,
    per calendar, a JSON state file holding a sync token and a map from
    event id to the last etag seen.  [init_watch] seeds that state and
    registers one watch channel per calendar; [calendar_push] is called by
    the provider on every change and replays the incremental change feed
    against the stored map.

    Everything outside the program is part of an explicit [world]: the two
    kinds of files, the answers the provider will give to the successive
    [events().list] and [events().watch] calls, the uuid generator, and a
    chronological [trace] of every effect the program performs.

    Conventions of the embedding:
    - the provider is scripted: each [execute()] takes the next answer of
      its feed, a page or an exception; a provider with no answer left is
      unreachable, which the client library reports by an exception that
      is not an [HttpError];
    - Python dicts are finite maps; the local [state] dict, which the
      source mutates in place, is threaded through the loops as a value,
      and is returned also when a loop is left by an exception;
    - reading a JSON file that does not exist gives the default, as in
      [load_json]; writing a file succeeds;
    - the printed lines and the downstream POST are recorded in the trace;
      the outcome of the POST is not, since the source swallows it;
    - the constant arguments of the listing requests ([maxResults=2500],
      [showDeleted=True], [timeMin=now], ...) are not represented. *)

From Stdlib Require Import Ascii.
From stdpp Require Import gmap strings list fin_maps.

(** ** Data model *)

(** One entry of a listing page.  [ev["id"]] is always present in a
    provider answer; [ev.get("status")] and [ev.get("etag")] may be
    missing, which Python reads as [None]. *)
Record event := Event {
  ev_id : string;
  ev_status : option string;
  ev_etag : option string
}.

(** The answer of [events().list(...).execute()].  [nextSyncToken = None]
    stands for a page that has no such key. *)
Record list_result := ListResult {
  items : list event;
  nextPageToken : option string;
  nextSyncToken : option string
}.

(** The answer of [events().watch(...).execute()]. *)
Record watch_result := WatchResult {
  resourceId : string;
  watch_expiration : option string
}.

(** The per-calendar state dict [{"events": {...}, "syncToken": ...}]. *)
Record sync_state := SyncState {
  events : gmap string (option string);
  syncToken : option string
}.

(** One value of [channels.json]. *)
Record channel_info := ChannelInfo {
  calendar_id : string;
  resource_id : string;
  expiration : option string
}.

(** An entry of the [started] list: [{"channel_id": ..., **info}]. *)
Record started_entry := Started {
  st_channel_id : string;
  st_info : channel_info
}.

(** Exceptions.  The handlers only ever tell [HttpError] (with the status
    of its response) from everything else. *)
Inductive exn :=
| HttpError (status : nat)
| OtherError.

Inductive reply (A : Type) :=
| Answer (a : A)
| Fails (e : exn).
Arguments Answer {A} a.
Arguments Fails {A} e.

Inductive result (A : Type) :=
| Ret (a : A)
| Raise (e : exn).
Arguments Ret {A} a.
Arguments Raise {A} e.

(** What an HTTP handler hands back to the framework: a bare
    [Response(status_code=...)], a [JSONResponse] carrying an error and a
    status, or the dict [{"ok": True, "started": [...]}] (status 200). *)
Inductive http_response :=
| Response (status_code : nat)
| JSONError (msg : string) (status_code : nat)
| JSONStarted (started : list started_entry).

(** ** Effects *)

Inductive diff_kind := Created | Updated | Deleted.

(** The lines the push handler prints.  A diff line carries the calendar
    and the event id (the source prints [describe(ev)] for created and
    updated events, a text derived from the same event). *)
Inductive log_line :=
| Diff (k : diff_kind) (cal : string) (id : string)
| NoDiffs (cal : string) (resource_state : option string)
| TokenExpired (cal : string)
| HttpErrorLogged (cal : string) (status : nat).

Inductive list_request :=
| BaselineList (calendarId : string) (pageToken : option string)
| IncrementalList (calendarId : string) (sync_token : option string)
    (pageToken : option string).

Inductive effect :=
| EMakeDirs
| EGetService
| ELoadChannels
| ESaveChannels (ch : gmap string channel_info)
| ELoadState (path : string)
| ESaveState (path : string) (st : sync_state)
| EList (req : list_request)
| EWatch (calendarId channel_id address : string)
| EPrint (l : log_line)
| EPost (cal : string).

Global Instance event_eq_dec : EqDecision event.
Proof. solve_decision. Defined.
Global Instance exn_eq_dec : EqDecision exn.
Proof. solve_decision. Defined.
Global Instance diff_kind_eq_dec : EqDecision diff_kind.
Proof. solve_decision. Defined.

(** ** The world *)

Record world := World {
  channels_file : gmap string channel_info;
  state_files : gmap string sync_state;
  list_feed : list (reply list_result);
  watch_feed : list (reply watch_result);
  uuid_source : nat -> string;
  uuid_count : nat;
  service_ok : bool;
  trace : list effect
}.

Definition emit (e : effect) (w : world) : world :=
  World (channels_file w) (state_files w) (list_feed w) (watch_feed w)
        (uuid_source w) (uuid_count w) (service_ok w) (trace w ++ [e]).

Definition emits (es : list effect) (w : world) : world :=
  World (channels_file w) (state_files w) (list_feed w) (watch_feed w)
        (uuid_source w) (uuid_count w) (service_ok w) (trace w ++ es).

Definition set_list_feed (f : list (reply list_result)) (w : world) : world :=
  World (channels_file w) (state_files w) f (watch_feed w)
        (uuid_source w) (uuid_count w) (service_ok w) (trace w).

Definition set_watch_feed (f : list (reply watch_result)) (w : world) : world :=
  World (channels_file w) (state_files w) (list_feed w) f
        (uuid_source w) (uuid_count w) (service_ok w) (trace w).

Definition set_state_files (s : gmap string sync_state) (w : world) : world :=
  World (channels_file w) s (list_feed w) (watch_feed w)
        (uuid_source w) (uuid_count w) (service_ok w) (trace w).

Definition set_channels_file (c : gmap string channel_info) (w : world) : world :=
  World c (state_files w) (list_feed w) (watch_feed w)
        (uuid_source w) (uuid_count w) (service_ok w) (trace w).

Definition bump_uuid (w : world) : world :=
  World (channels_file w) (state_files w) (list_feed w) (watch_feed w)
        (uuid_source w) (S (uuid_count w)) (service_ok w) (trace w).

(** ** A state and exception monad over the world *)

Definition M (A : Type) : Type := world -> result A * world.

Definition ret {A} (a : A) : M A := fun w => (Ret a, w).
Definition raise {A} (e : exn) : M A := fun w => (Raise e, w).
Definition bind {A B} (m : M A) (k : A -> M B) : M B :=
  fun w => match m w with
           | (Ret a, w') => k a w'
           | (Raise e, w') => (Raise e, w')
           end.
Definition tell (e : effect) : M unit := fun w => (Ret tt, emit e w).

Declare Scope io_scope.
Delimit Scope io_scope with io.
Notation "x <- m ;; k" := (bind m (fun x => k))
  (at level 100, m at next level, right associativity) : io_scope.
Notation "m ;;; k" := (bind m (fun _ => k))
  (at level 100, right associativity) : io_scope.

(** ** Helpers *)

(** Python truthiness of an optional string: [None] and the empty string
    are false. *)
Definition truthy (o : option string) : bool :=
  match o with
  | Some s => negb (String.eqb s EmptyString)
  | None => false
  end.

(** The character class [A-Za-z0-9._-]. *)
Definition safe_char (c : ascii) : bool :=
  let n := nat_of_ascii c in
  ((65 <=? n) && (n <=? 90)) || ((97 <=? n) && (n <=? 122))
  || ((48 <=? n) && (n <=? 57))
  || (n =? 46) || (n =? 95) || (n =? 45).

(** [re.sub(r"[^A-Za-z0-9._-]+", "_", s)]: every maximal run of unsafe
    characters becomes one underscore.  [in_run] records that the previous
    character was unsafe. *)
Fixpoint safe_name_from (in_run : bool) (s : string) : string :=
  match s with
  | EmptyString => EmptyString
  | String c s' =>
      if safe_char c then String c (safe_name_from false s')
      else if in_run then safe_name_from true s'
      else String "_" (safe_name_from true s')
  end.

Definition safe_name (s : string) : string := safe_name_from false s.

Definition STATE_DIR : string := "calendar_states".

Definition state_path (cal : string) : string :=
  STATE_DIR +:+ "/state_" +:+ safe_name cal +:+ ".json".

(** [load_json(spath, {"events": {}, "syncToken": None})]. *)
Definition default_state : sync_state := SyncState ∅ None.

Definition load_json (path : string) : M sync_state :=
  fun w => (Ret (default (default_state) (state_files w !! path)),
            emit (ELoadState path) w).

Definition save_json (path : string) (st : sync_state) : M unit :=
  fun w => (Ret tt,
            emit (ESaveState path st)
                 (set_state_files (<[path := st]> (state_files w)) w)).

Definition load_channels : M (gmap string channel_info) :=
  fun w => (Ret (channels_file w), emit ELoadChannels w).

Definition save_channels (ch : gmap string channel_info) : M unit :=
  fun w => (Ret tt, emit (ESaveChannels ch) (set_channels_file ch w)).

Definition ensure_dirs : M unit := tell EMakeDirs.

(** [get_service()] builds the API client from the service-account file;
    it raises when the credentials cannot be read. *)
Definition get_service : M unit :=
  fun w => if service_ok w then (Ret tt, emit EGetService w)
           else (Raise OtherError, emit EGetService w).

Definition uuid4 : M string :=
  fun w => (Ret (uuid_source w (uuid_count w)), bump_uuid w).

(** [service.events().watch(calendarId=..., body=...).execute()]: the
    provider's next scripted answer; a provider with nothing left to say
    is unreachable, which the client reports as a transport exception. *)
Definition watch (cal channel address : string) : M watch_result :=
  fun w =>
    let w1 := emit (EWatch cal channel address) w in
    match watch_feed w with
    | [] => (Raise OtherError, w1)
    | Answer r :: f => (Ret r, set_watch_feed f w1)
    | Fails e :: f => (Raise e, set_watch_feed f w1)
    end.

(** ** Bootstrap: [ensure_baseline] *)

(** The body of [for ev in res.get("items", [])] in [ensure_baseline]:
    every item whose status is not ["cancelled"] is recorded. *)
Definition baseline_item (events_map : gmap string (option string))
    (ev : event) : gmap string (option string) :=
  if decide (ev_status ev = Some "cancelled") then events_map
  else <[ev_id ev := ev_etag ev]> events_map.

(** The [while True] loop of [ensure_baseline].  Each turn asks the
    provider for the next page, so the loop is structural in the answers
    the provider still has; [w] carries the same feed, kept in step. *)
Fixpoint baseline_loop (cal : string) (feed : list (reply list_result))
    (events_map : gmap string (option string)) (page : option string)
    (w : world) : result sync_state * world :=
  match feed with
  | [] =>
      (Raise OtherError,
       emit (EList (BaselineList cal page)) (set_list_feed [] w))
  | r :: feed' =>
      let w1 := emit (EList (BaselineList cal page)) (set_list_feed feed' w) in
      match r with
      | Fails e => (Raise e, w1)
      | Answer res =>
          let events_map' := foldl baseline_item events_map (items res) in
          if truthy (nextPageToken res)
          then baseline_loop cal feed' events_map' (nextPageToken res) w1
          else (Ret (SyncState events_map' (nextSyncToken res)), w1)
      end
  end.

(** [ensure_baseline(service, calendar_id, state)]; the updated dict is
    returned, the caller persists it. *)
Definition ensure_baseline (cal : string) (state : sync_state) : M sync_state :=
  fun w => if truthy (syncToken state) then (Ret state, w)
           else baseline_loop cal (list_feed w) ∅ None w.

(** ** Incremental sync: the body of [calendar_push] *)

(** One turn of [for ev in items].  [ev_id in state["events"]] tests the
    key; [state["events"].get(ev_id)] is [None] both for a missing key and
    for a stored [None].  The POST to the downstream endpoint sits after
    the created/updated test, at the level of the assignment. *)
Definition process_event (cal : string) (evs : gmap string (option string))
    (ev : event) : gmap string (option string) * list effect :=
  if decide (ev_status ev = Some "cancelled") then
    if decide (is_Some (evs !! ev_id ev)) then
      (delete (ev_id ev) evs,
       [EPrint (Diff Deleted cal (ev_id ev)); EPost cal])
    else (evs, [])
  else
    let line :=
      match mjoin (evs !! ev_id ev) with
      | None => [EPrint (Diff Created cal (ev_id ev))]
      | Some prev =>
          if decide (Some prev = ev_etag ev) then []
          else [EPrint (Diff Updated cal (ev_id ev))]
      end in
    (<[ev_id ev := ev_etag ev]> evs, line ++ [EPost cal]).

Fixpoint process_items (cal : string) (evs : gmap string (option string))
    (l : list event) : gmap string (option string) * list effect :=
  match l with
  | [] => (evs, [])
  | ev :: rest =>
      let '(evs1, t1) := process_event cal evs ev in
      let '(evs2, t2) := process_items cal evs1 rest in
      (evs2, t1 ++ t2)
  end.

(** [res.get("nextSyncToken", state["syncToken"])]. *)
Definition next_cursor (res : list_result) (state : sync_state) : option string :=
  match nextSyncToken res with
  | Some t => Some t
  | None => syncToken state
  end.

(** The [while True] loop inside the [try].  Besides the outcome (the
    value of [total], or the exception raised by [execute()]) it returns
    the in-memory [state] dict as mutated so far, which the [except]
    clause goes on using. *)
Fixpoint sync_loop (cal spath : string) (feed : list (reply list_result))
    (state : sync_state) (page : option string) (total : nat) (w : world)
    : (result nat * sync_state) * world :=
  let req := EList (IncrementalList cal (syncToken state) page) in
  match feed with
  | [] => ((Raise OtherError, state), emit req (set_list_feed [] w))
  | r :: feed' =>
      let w1 := emit req (set_list_feed feed' w) in
      match r with
      | Fails e => ((Raise e, state), w1)
      | Answer res =>
          let '(evs, t) := process_items cal (events state) (items res) in
          let state1 := SyncState evs (syncToken state) in
          let w2 := emits t w1 in
          let total' := total + length (items res) in
          if truthy (nextPageToken res)
          then sync_loop cal spath feed' state1 (nextPageToken res) total' w2
          else
            let state2 := SyncState evs (next_cursor res state1) in
            ((Ret total', state2), (save_json spath state2 w2).2)
      end
  end.

(** The whole [try ... except HttpError] statement. *)
Definition incremental (cal spath : string) (resource_state : option string)
    (state : sync_state) : M unit :=
  fun w =>
    match sync_loop cal spath (list_feed w) state None 0 w with
    | ((Ret total, _), w') =>
        (Ret tt,
         if (total =? 0)%nat then emit (EPrint (NoDiffs cal resource_state)) w'
         else w')
    | ((Raise (HttpError status), state'), w') =>
        if (status =? 410)%nat then
          save_json spath (SyncState (events state') None)
                    (emit (EPrint (TokenExpired cal)) w')
        else (Ret tt, emit (EPrint (HttpErrorLogged cal status)) w')
    | ((Raise OtherError, _), w') => (Raise OtherError, w')
    end.

(** [POST /calendar/push], given the two request headers
    [X-Goog-Channel-ID] and [X-Goog-Resource-State].  An exception that
    leaves this function reaches the framework, which answers for it. *)
Definition calendar_push (channel_id resource_state : option string)
    : M http_response :=
  (channels <- load_channels;;
   match channel_id ≫= (fun c => channels !! c) with
   | None => ret (Response 200)
   | Some meta =>
       let cal := calendar_id meta in
       get_service;;;
       let spath := state_path cal in
       state <- load_json spath;;
       state <- (if truthy (syncToken state) then ret state
                 else (state' <- ensure_baseline cal state;;
                       save_json spath state';;;
                       ret state'));;
       incremental cal spath resource_state state;;;
       ret (Response 200)
   end)%io.

(** ** Registration: [init_watch] *)

Record config := Config {
  WEBHOOK_ADDRESS : option string;
  CALENDAR_IDS : list string
}.

(** The body of [for cal_id in CALENDAR_IDS]. *)
Definition register_calendar (address cal_id : string) : M started_entry :=
  (let spath := state_path cal_id in
   state <- load_json spath;;
   state' <- ensure_baseline cal_id state;;
   save_json spath state';;;
   channel_id <- uuid4;;
   wr <- watch cal_id channel_id address;;
   ret (Started channel_id
          (ChannelInfo cal_id (resourceId wr) (watch_expiration wr))))%io.

Fixpoint init_loop (address : string) (cals : list string)
    (channels : gmap string channel_info) (started : list started_entry)
    : M (gmap string channel_info * list started_entry) :=
  match cals with
  | [] => ret (channels, started)
  | cal_id :: rest =>
      (s <- register_calendar address cal_id;;
       init_loop address rest
         (<[st_channel_id s := st_info s]> channels) (started ++ [s]))%io
  end.

(** [POST /init_watch]. *)
Definition init_watch (cfg : config) : M http_response :=
  if negb (truthy (WEBHOOK_ADDRESS cfg)) then
    ret (JSONError "Set WEBHOOK_ADDRESS env var" 400)
  else if bool_decide (CALENDAR_IDS cfg = []) then
    ret (JSONError "Set CALENDAR_ID or CALENDAR_IDS env var" 400)
  else
    (ensure_dirs;;;
     get_service;;;
     channels <- load_channels;;
     r <- init_loop (default EmptyString (WEBHOOK_ADDRESS cfg)) (CALENDAR_IDS cfg)
            channels [];;
     save_channels r.1;;;
     ret (JSONStarted r.2))%io.

(** ** Deregistration: [stop_watch] *)

(** What [stop_watch] returns: the dict [{"ok": False, "error": "no active
    channels"}] or the dict [{"ok": True, "stopped": [...]}]. *)
Inductive stop_response :=
| NoActiveChannels
| StoppedChannels (stopped : list started_entry).

(** The body of [for ch_id, meta in list(channels.items())].  The answer
    of [channels().stop(...).execute()] for a channel id and a resource id
    is given by [stop]; an exception it raises is caught by [except
    Exception] and printed.  The loop returns the dict as popped so far,
    the [stopped] list and the ["stop error:"] lines, each with the channel
    it was printed for. *)
Fixpoint stop_loop (stop : string -> string -> reply unit)
    (l : list (string * channel_info))
    (channels : gmap string channel_info) (stopped : list started_entry)
    (errors : list (string * exn))
    : gmap string channel_info * list started_entry * list (string * exn) :=
  match l with
  | [] => (channels, stopped, errors)
  | (ch_id, meta) :: rest =>
      let errors' :=
        match stop ch_id (resource_id meta) with
        | Answer _ => errors
        | Fails e => errors ++ [(ch_id, e)]
        end in
      stop_loop stop rest (delete ch_id channels)
        (stopped ++ [Started ch_id meta]) errors'
  end.

(** [POST /stop_watch].  The channels are visited in the order of
    [map_to_list]; the finite map does not record the key order of the
    JSON file, which is the order Python visits them in.  Beside the
    response the printed ["stop error:"] lines are returned. *)
Definition stop_watch (stop : string -> string -> reply unit)
    : M (stop_response * list (string * exn)) :=
  (channels <- load_channels;;
   if bool_decide (channels = ∅) then ret (NoActiveChannels, [])
   else
     get_service;;;
     let r := stop_loop stop (map_to_list channels) channels [] [] in
     save_channels r.1.1;;;
     ret (StoppedChannels r.1.2, r.2))%io.

(** ** Reading a trace *)

(** The diff lines of a trace, in order. *)
Definition diff_events (t : list effect) : list (diff_kind * string) :=
  omap (fun e => match e with
                 | EPrint (Diff k _ id) => Some (k, id)
                 | _ => None
                 end) t.

(** The downstream POSTs of a trace: the calendar named in each payload. *)
Definition posts (t : list effect) : list string :=
  omap (fun e => match e with EPost c => Some c | _ => None end) t.

(** The state records written in a trace. *)
Definition saves (t : list effect) : list (string * sync_state) :=
  omap (fun e => match e with ESaveState p st => Some (p, st) | _ => None end) t.

(** The provider listings requested in a trace. *)
Definition listings (t : list effect) : list list_request :=
  omap (fun e => match e with EList r => Some r | _ => None end) t.

(** The effects performed between world [w] and a later world [w']. *)
Definition since (w w' : world) : list effect :=
  drop (length (trace w)) (trace w').

(** ** Vocabulary for feeds *)

Definition cancelled (ev : event) : Prop := ev_status ev = Some "cancelled".

Global Instance cancelled_dec ev : Decision (cancelled ev).
Proof. unfold cancelled. apply _. Defined.

(** A page that announces a further page. *)
Definition has_more (p : list_result) : Prop := truthy (nextPageToken p) = true.

(** All the items of a run of pages, in order. *)
Definition all_items (ps : list list_result) : list event :=
  concat (items <$> ps).

(** The page token in hand after a run of pages. *)
Fixpoint page_after (page : option string) (ps : list list_result)
    : option string :=
  match ps with
  | [] => page
  | p :: ps' => page_after (nextPageToken p) ps'
  end.

(** The effects of the incremental loop over a run of pages that all
    announce a further page. *)
Fixpoint pages_trace (cal : string) (tok : option string)
    (evs : gmap string (option string)) (page : option string)
    (ps : list list_result) : list effect :=
  match ps with
  | [] => []
  | p :: ps' =>
      EList (IncrementalList cal tok page)
        :: (process_items cal evs (items p)).2
        ++ pages_trace cal tok (process_items cal evs (items p)).1
             (nextPageToken p) ps'
  end.

(** The same for the baseline loop: one listing per page. *)
Fixpoint baseline_trace (cal : string) (page : option string)
    (ps : list list_result) : list effect :=
  match ps with
  | [] => []
  | p :: ps' =>
      EList (BaselineList cal page) :: baseline_trace cal (nextPageToken p) ps'
  end.

(** The last operation a list of items performs on key [i]: [None] when no
    item has that id, [Some None] when the last one is cancelled,
    [Some (Some etag)] when it is active. *)
Fixpoint last_op (l : list event) (i : string)
    : option (option (option string)) :=
  match l with
  | [] => None
  | ev :: rest =>
      match last_op rest i with
      | Some v => Some v
      | None =>
          if decide (ev_id ev = i)
          then Some (if decide (cancelled ev) then None else Some (ev_etag ev))
          else None
      end
  end.

(** An item that the map already reflects: a cancelled item that is not
    tracked, or an active item stored under its own, present, etag. *)
Definition settled (evs : gmap string (option string)) (ev : event) : Prop :=
  if decide (cancelled ev) then evs !! ev_id ev = None
  else exists e, ev_etag ev = Some e /\ evs !! ev_id ev = Some (Some e).

(** The pair an active item contributes to the baseline map. *)
Definition binding (ev : event) : string * option string :=
  (ev_id ev, ev_etag ev).

(** The active (not cancelled) items of a listing. *)
Definition active (l : list event) : list event :=
  filter (fun ev => ¬ cancelled ev) l.

(** The diff lines of a trace that concern the event id [i]. *)
Definition diffs_about (i : string) (t : list effect)
    : list (diff_kind * string) :=
  filter (fun d => d.2 = i) (diff_events t).

(** A feed on which the [try] statement ends normally: the pages arrive
    up to a final one, or a listing is answered by an [HttpError]. *)
Inductive sync_feed : list (reply list_result) -> Prop :=
| sync_feed_done ps last rest :
    Forall has_more ps -> truthy (nextPageToken last) = false ->
    sync_feed ((Answer <$> ps) ++ Answer last :: rest)
| sync_feed_http ps status rest :
    Forall has_more ps ->
    sync_feed ((Answer <$> ps) ++ Fails (HttpError status) :: rest).

(** The situations in which the push handler answers: the channel id is
    missing or unknown; or the channel is known, the credentials load, a
    cursor is stored and the incremental listing ends normally or with an
    [HttpError]; or no cursor is stored, the baseline pages all arrive and
    the incremental listing that follows ends in one of those two ways. *)
Inductive acknowledged (channel_id : option string) (w : world) : Prop :=
| ack_unknown :
    channel_id ≫= (fun c => channels_file w !! c) = None ->
    acknowledged channel_id w
| ack_synced ch meta state :
    channel_id = Some ch -> channels_file w !! ch = Some meta ->
    service_ok w = true ->
    state_files w !! state_path (calendar_id meta) = Some state ->
    truthy (syncToken state) = true ->
    sync_feed (list_feed w) ->
    acknowledged channel_id w
| ack_bootstrapped ch meta ps last rest :
    channel_id = Some ch -> channels_file w !! ch = Some meta ->
    service_ok w = true ->
    truthy (syncToken (default default_state
                         (state_files w !! state_path (calendar_id meta))))
    = false ->
    Forall has_more ps -> truthy (nextPageToken last) = false ->
    list_feed w = (Answer <$> ps) ++ Answer last :: rest ->
    sync_feed rest ->
    acknowledged channel_id w.

(** Bootstrapping and registering succeed for each calendar of a list,
    one after the other, yielding one [started] entry each. *)
Inductive registers (address : string)
    : list string -> world -> list started_entry -> world -> Prop :=
| registers_nil w : registers address [] w [] w
| registers_cons cal cals w s w1 ss w2 :
    register_calendar address cal w = (Ret s, w1) ->
    registers address cals w1 ss w2 ->
    registers address (cal :: cals) w (s :: ss) w2.

(** The registry after recording a list of started channels. *)
Definition record_channels (channels : gmap string channel_info)
    (ss : list started_entry) : gmap string channel_info :=
  foldl (fun m s => <[st_channel_id s := st_info s]> m) channels ss.

(** The characters of a string are all in the class [A-Za-z0-9._-]. *)
Definition safe_string (s : string) : Prop :=
  Forall (fun c => safe_char c = true) (String.list_ascii_of_string s).

(** What a handler that only works on the state record at [path] keeps:
    the registry, the watch feed, the uuid generator and its counter, the
    credentials and every other state record. *)
Definition keeps_but (path : string) (w w' : world) : Prop :=
  channels_file w' = channels_file w
  /\ watch_feed w' = watch_feed w
  /\ uuid_count w' = uuid_count w
  /\ service_ok w' = service_ok w
  /\ uuid_source w' = uuid_source w
  /\ forall q, q <> path -> state_files w' !! q = state_files w !! q.

(** The number of Deleted lines of a trace. *)
Definition deleted_lines (t : list effect) : nat :=
  length (filter (fun d => d.1 = Deleted) (diff_events t)).

(** ** Example inputs *)

(** A world with the given provider feed, state files and channels, an
    empty trace, working credentials and channel ids ["ch0"], ["ch1"],
    ... *)
Definition example_world (feed : list (reply list_result))
    (watches : list (reply watch_result))
    (states : gmap string sync_state)
    (chans : gmap string channel_info) : world :=
  World chans states feed watches
        (fun n => String "c" (String "h" (String (ascii_of_nat (48 + n)) EmptyString)))
        0 true [].

(** Prior state [{a: "e1"}] with a cursor. *)
Definition state_a : sync_state := SyncState {[ "a" := Some "e1" ]} (Some "c0").

(** The page [[{id:a, etag:"e2"}, {id:b, etag:"e1"}, {id:c, cancelled}]]. *)
Definition page_abc (next : option string) : list_result :=
  ListResult [Event "a" (Some "confirmed") (Some "e2");
              Event "b" (Some "confirmed") (Some "e1");
              Event "c" (Some "cancelled") None] None next.

(** The page [[{id:a, cancelled}]]. *)
Definition page_del_a (next : option string) : list_result :=
  ListResult [Event "a" (Some "cancelled") None] None next.

(** A page that carries the same id twice, with two different etags. *)
Definition page_twice : list_result :=
  ListResult [Event "a" (Some "confirmed") (Some "e1");
              Event "a" (Some "confirmed") (Some "e2")] None (Some "c1").

(** Two baseline pages: an active and a cancelled item, then one more
    active item and the cursor. *)
Definition baseline_page1 : list_result :=
  ListResult [Event "a" None (Some "e1"); Event "x" (Some "cancelled") None]
             (Some "p2") None.
Definition baseline_page2 : list_result :=
  ListResult [Event "b" (Some "confirmed") (Some "e2")] None (Some "c1").

(** A page that announces a further page and brings a new item. *)
Definition page_more : list_result :=
  ListResult [Event "b" (Some "confirmed") (Some "e1")] (Some "p2") None.

(** A registry with one channel, ["ch0"], watching calendar ["cal"]. *)
Definition one_channel : gmap string channel_info :=
  {[ "ch0" := ChannelInfo "cal" "res0" None ]}.

(** The state file of calendar ["cal"] holding [state_a]. *)
Definition stored_a : gmap string sync_state :=
  {[ state_path "cal" := state_a ]}.

(** Two calendars and a callback address. *)
Definition two_calendars : config :=
  Config (Some "https://relay.example/calendar/push") ["c1"; "c2"].

(** A registry with two channels, for two calendars. *)
Definition two_channels : gmap string channel_info :=
  {[ "ch0" := ChannelInfo "c1" "res1" None;
     "ch1" := ChannelInfo "c2" "res2" None ]}.

(** A provider that refuses to stop ["ch0"] and stops everything else. *)
Definition stop_refusing_ch0 (ch_id res : string) : reply unit :=
  if bool_decide (ch_id = "ch0") then Fails (HttpError 404) else Answer tt.

(** A baseline page in which an id is listed as active and then as
    cancelled. *)
Definition baseline_page_revoked : list_result :=
  ListResult [Event "a" (Some "confirmed") (Some "e1");
              Event "a" (Some "cancelled") None] None (Some "c1").

(** * Proofs *)

(** ** Worlds and traces *)

Lemma since_app w w' t : trace w' = trace w ++ t -> since w w' = t.
Proof. intros H. unfold since. rewrite H. apply drop_app_length. Qed.

Lemma emits_nil w : emits [] w = w.
Proof. destruct w. unfold emits. simpl. by rewrite app_nil_r. Qed.

Lemma emits_emits t1 t2 w : emits t2 (emits t1 w) = emits (t1 ++ t2) w.
Proof. unfold emits. simpl. by rewrite app_assoc. Qed.

Lemma emit_emits e t w : emits t (emit e w) = emits (e :: t) w.
Proof. unfold emits, emit. simpl. by rewrite <- app_assoc. Qed.

(** Two worlds built from the same one by the setters are equal as soon
    as their traces agree up to the bracketing of appends. *)
Ltac world_eq :=
  repeat (progress (unfold save_json, emit, emits, set_state_files,
                      set_list_feed, set_watch_feed, set_channels_file,
                      bump_uuid; cbn));
  f_equal; repeat (rewrite <- ?app_assoc; cbn); try done.

Lemma emits_set_list_feed t f w :
  emits t (set_list_feed f w) = set_list_feed f (emits t w).
Proof. reflexivity. Qed.

Lemma diff_events_app t1 t2 :
  diff_events (t1 ++ t2) = diff_events t1 ++ diff_events t2.
Proof. apply omap_app. Qed.

Lemma posts_app t1 t2 : posts (t1 ++ t2) = posts t1 ++ posts t2.
Proof. apply omap_app. Qed.

Lemma saves_app t1 t2 : saves (t1 ++ t2) = saves t1 ++ saves t2.
Proof. apply omap_app. Qed.

Lemma listings_app t1 t2 : listings (t1 ++ t2) = listings t1 ++ listings t2.
Proof. apply omap_app. Qed.

(** ** Classifying items *)

Section Items.
Variable cal : string.

Implicit Types (evs : gmap string (option string)) (ev : event)
  (l : list event) (i : string).

Lemma process_items_app evs l1 l2 :
  process_items cal evs (l1 ++ l2) =
  ((process_items cal (process_items cal evs l1).1 l2).1,
   (process_items cal evs l1).2
     ++ (process_items cal (process_items cal evs l1).1 l2).2).
Proof.
  revert evs. induction l1 as [|ev l1 IH]; intros evs; simpl.
  - by destruct (process_items cal evs l2).
  - destruct (process_event cal evs ev) as [evs1 t1].
    rewrite IH.
    destruct (process_items cal evs1 l1) as [evs2 t2]; simpl.
    by rewrite app_assoc.
Qed.

(** Classification never writes a state record and never lists. *)
Lemma process_event_saves evs ev : saves (process_event cal evs ev).2 = [].
Proof.
  unfold process_event. repeat case_decide; simpl; try done.
  all: destruct (mjoin _); simpl; try done; case_decide; done.
Qed.

Lemma process_event_listings evs ev :
  listings (process_event cal evs ev).2 = [].
Proof.
  unfold process_event. repeat case_decide; simpl; try done.
  all: destruct (mjoin _); simpl; try done; case_decide; done.
Qed.

Lemma process_items_saves evs l : saves (process_items cal evs l).2 = [].
Proof.
  revert evs. induction l as [|ev l IH]; intros evs; simpl; [done|].
  pose proof (process_event_saves evs ev) as H.
  destruct (process_event cal evs ev) as [evs1 t1]. specialize (IH evs1).
  destruct (process_items cal evs1 l) as [evs2 t2]. simpl in *.
  by rewrite saves_app, H, IH.
Qed.

Lemma process_items_listings evs l :
  listings (process_items cal evs l).2 = [].
Proof.
  revert evs. induction l as [|ev l IH]; intros evs; simpl; [done|].
  pose proof (process_event_listings evs ev) as H.
  destruct (process_event cal evs ev) as [evs1 t1]. specialize (IH evs1).
  destruct (process_items cal evs1 l) as [evs2 t2]. simpl in *.
  by rewrite listings_app, H, IH.
Qed.

(** What one item does to the key [i]. *)
Lemma process_event_lookup evs ev i :
  (process_event cal evs ev).1 !! i =
  if decide (ev_id ev = i)
  then (if decide (cancelled ev) then None else Some (ev_etag ev))
  else evs !! i.
Proof.
  unfold process_event, cancelled.
  destruct (decide (ev_status ev = Some "cancelled")) as [Hc|Hc].
  - destruct (decide (is_Some (evs !! ev_id ev))) as [Hs|Hs]; simpl.
    + destruct (decide (ev_id ev = i)) as [->|Hne].
      * apply lookup_delete_eq.
      * by apply lookup_delete_ne.
    + destruct (decide (ev_id ev = i)) as [<-|Hne]; [|done].
      by apply eq_None_not_Some.
  - simpl. destruct (decide (ev_id ev = i)) as [->|Hne].
    + apply lookup_insert_eq.
    + by apply lookup_insert_ne.
Qed.

(** Last write wins: the final map holds, for every key, what the last
    item with that id left there, and the prior value for untouched
    keys. *)
Lemma process_items_lookup l : forall evs i,
  (process_items cal evs l).1 !! i =
  match last_op l i with
  | Some v => v
  | None => evs !! i
  end.
Proof.
  induction l as [|ev l IH]; intros evs i; simpl; [done|].
  pose proof (process_event_lookup evs ev i) as H.
  destruct (process_event cal evs ev) as [evs1 t1]. specialize (IH evs1 i).
  destruct (process_items cal evs1 l) as [evs2 t2]. simpl in *.
  rewrite IH. destruct (last_op l i); [done|].
  rewrite H. by destruct (decide (ev_id ev = i)).
Qed.

(** Replaying the same items on the map they produced leaves it as is. *)
Lemma process_items_replay_map evs l :
  (process_items cal (process_items cal evs l).1 l).1
  = (process_items cal evs l).1.
Proof.
  apply map_eq. intros i. rewrite !process_items_lookup.
  by destruct (last_op l i).
Qed.

Lemma last_op_not_in l i : i ∉ ev_id <$> l -> last_op l i = None.
Proof.
  induction l as [|ev l IH]; simpl; [done|].
  intros Hni. apply not_elem_of_cons in Hni as [Hne Hni].
  rewrite (IH Hni). by rewrite decide_False.
Qed.

(** A settled item changes nothing and prints no diff line. *)
Lemma process_event_settled evs ev :
  settled evs ev ->
  (process_event cal evs ev).1 = evs
  /\ diff_events (process_event cal evs ev).2 = [].
Proof.
  unfold settled, process_event, cancelled.
  destruct (decide (ev_status ev = Some "cancelled")) as [Hc|Hc].
  - intros Hn. rewrite Hn. rewrite decide_False; [done|].
    by intros [? ?].
  - intros (e & He & Hl). rewrite Hl. simpl. split.
    + rewrite He. by apply insert_id.
    + rewrite He. by rewrite decide_True.
Qed.

Lemma process_items_settled l : forall evs,
  Forall (settled evs) l ->
  (process_items cal evs l).1 = evs
  /\ diff_events (process_items cal evs l).2 = [].
Proof.
  induction l as [|ev l IH]; intros evs Hall; simpl; [done|].
  apply Forall_cons in Hall as [Hev Hall].
  destruct (process_event_settled evs ev Hev) as [H1 H2].
  destruct (process_event cal evs ev) as [evs1 t1]. simpl in *. subst evs1.
  destruct (IH evs Hall) as [H3 H4].
  destruct (process_items cal evs l) as [evs2 t2]. simpl in *.
  split; [done|]. by rewrite diff_events_app, H2, H4.
Qed.

(** After a run over items with pairwise distinct ids whose active
    members all carry an etag, every one of them is settled. *)
Lemma process_items_settles l evs :
  NoDup (ev_id <$> l) ->
  (forall ev, ev ∈ l -> ¬ cancelled ev -> is_Some (ev_etag ev)) ->
  Forall (settled (process_items cal evs l).1) l.
Proof.
  intros Hnd Hetag. apply Forall_forall. intros ev Hin.
  assert (last_op l (ev_id ev)
          = Some (if decide (cancelled ev) then None else Some (ev_etag ev)))
    as Hlast.
  { clear Hetag. induction l as [|ev' l IH]; [by apply elem_of_nil in Hin|].
    simpl in *. apply NoDup_cons in Hnd as [Hni Hnd].
    apply elem_of_cons in Hin as [->|Hin].
    - rewrite (last_op_not_in l (ev_id ev') Hni). by rewrite decide_True.
    - by rewrite (IH Hnd Hin). }
  unfold settled. rewrite process_items_lookup, Hlast.
  destruct (decide (cancelled ev)) as [Hc|Hc]; [done|].
  destruct (Hetag ev Hin Hc) as [e He]. exists e. by rewrite He.
Qed.
End Items.

(** ** The paging loops *)

Lemma all_items_cons p ps : all_items (p :: ps) = items p ++ all_items ps.
Proof. reflexivity. Qed.

Lemma all_items_app ps qs : all_items (ps ++ qs) = all_items ps ++ all_items qs.
Proof. unfold all_items. by rewrite fmap_app, concat_app. Qed.

Lemma all_items_snoc ps p : all_items (ps ++ [p]) = all_items ps ++ items p.
Proof. rewrite all_items_app. unfold all_items. simpl. by rewrite app_nil_r. Qed.

Section Loops.
Variables cal spath : string.

Implicit Types (ps : list list_result) (feed : list (reply list_result))
  (state : sync_state) (page tok : option string) (w : world).

(** The loops read the provider's answers from their [feed] argument
    and overwrite the world's copy at every turn. *)
Lemma sync_loop_feed_irrel feed state page total f w :
  sync_loop cal spath feed state page total (set_list_feed f w)
  = sync_loop cal spath feed state page total w.
Proof. destruct feed as [|[res|e] feed]; reflexivity. Qed.

Lemma baseline_loop_feed_irrel feed m page f w :
  baseline_loop cal feed m page (set_list_feed f w)
  = baseline_loop cal feed m page w.
Proof. destruct feed as [|[res|e] feed]; reflexivity. Qed.

(** Consuming a run of pages that all announce a further page. *)
Lemma sync_loop_pages ps : forall feed state page total w,
  Forall has_more ps ->
  sync_loop cal spath ((Answer <$> ps) ++ feed) state page total w =
  sync_loop cal spath feed
    (SyncState (process_items cal (events state) (all_items ps)).1
               (syncToken state))
    (page_after page ps) (total + length (all_items ps))
    (emits (pages_trace cal (syncToken state) (events state) page ps) w).
Proof.
  induction ps as [|p ps IH]; intros feed state page total w Hmore.
  - simpl. destruct state. simpl. by rewrite emits_nil, Nat.add_0_r.
  - apply Forall_cons in Hmore as [Hp Hmore]. red in Hp.
    rewrite all_items_cons, process_items_app, length_app. simpl.
    destruct (process_items cal (events state) (items p)) as [evs t] eqn:E.
    rewrite Hp, (IH _ _ _ _ _ Hmore). simpl.
    rewrite emits_emits, emit_emits, Nat.add_assoc, emits_set_list_feed.
    apply sync_loop_feed_irrel.
Qed.

Lemma baseline_loop_pages ps : forall feed m page w,
  Forall has_more ps ->
  baseline_loop cal ((Answer <$> ps) ++ feed) m page w =
  baseline_loop cal feed (foldl baseline_item m (all_items ps))
    (page_after page ps) (emits (baseline_trace cal page ps) w).
Proof.
  induction ps as [|p ps IH]; intros feed m page w Hmore.
  - simpl. by rewrite emits_nil.
  - apply Forall_cons in Hmore as [Hp Hmore]. red in Hp.
    rewrite all_items_cons, foldl_app. simpl.
    rewrite Hp, (IH _ _ _ _ Hmore). rewrite emit_emits, emits_set_list_feed.
    apply baseline_loop_feed_irrel.
Qed.

(** What the consumed pages contribute to a trace. *)
Lemma pages_trace_diff_events tok ps : forall evs page,
  diff_events (pages_trace cal tok evs page ps)
  = diff_events (process_items cal evs (all_items ps)).2.
Proof.
  induction ps as [|p ps IH]; intros evs page; [done|].
  rewrite all_items_cons, process_items_app. simpl.
  by rewrite !diff_events_app, IH.
Qed.

Lemma pages_trace_posts tok ps : forall evs page,
  posts (pages_trace cal tok evs page ps)
  = posts (process_items cal evs (all_items ps)).2.
Proof.
  induction ps as [|p ps IH]; intros evs page; [done|].
  rewrite all_items_cons, process_items_app. simpl.
  by rewrite !posts_app, IH.
Qed.

Lemma pages_trace_saves tok ps : forall evs page,
  saves (pages_trace cal tok evs page ps) = [].
Proof.
  induction ps as [|p ps IH]; intros evs page; [done|]. simpl.
  by rewrite saves_app, process_items_saves, IH.
Qed.

Lemma pages_trace_listings tok ps : forall evs page,
  listings (pages_trace cal tok evs page ps)
  = IncrementalList cal tok
      <$> take (length ps) (page :: (nextPageToken <$> ps)).
Proof.
  induction ps as [|p ps IH]; intros evs page; [done|]. simpl.
  by rewrite listings_app, process_items_listings, IH.
Qed.

Lemma pages_trace_snoc tok ps p : forall evs page,
  pages_trace cal tok evs page (ps ++ [p])
  = pages_trace cal tok evs page ps
    ++ EList (IncrementalList cal tok (page_after page ps))
    :: (process_items cal (process_items cal evs (all_items ps)).1
          (items p)).2.
Proof.
  induction ps as [|q ps IH]; intros evs page.
  - simpl. by rewrite app_nil_r.
  - rewrite all_items_cons, process_items_app. simpl.
    by rewrite IH, <- app_assoc.
Qed.

Lemma baseline_trace_listings ps : forall page,
  listings (baseline_trace cal page ps)
  = BaselineList cal <$> take (length ps) (page :: (nextPageToken <$> ps)).
Proof.
  induction ps as [|p ps IH]; intros page; [done|]. simpl. by rewrite IH.
Qed.

Lemma baseline_trace_quiet ps : forall page,
  diff_events (baseline_trace cal page ps) = []
  /\ posts (baseline_trace cal page ps) = []
  /\ saves (baseline_trace cal page ps) = [].
Proof. induction ps as [|p ps IH]; intros page; [done|]. apply IH. Qed.

Lemma baseline_trace_snoc ps p : forall page,
  baseline_trace cal page (ps ++ [p])
  = baseline_trace cal page ps ++ [EList (BaselineList cal (page_after page ps))].
Proof.
  induction ps as [|q ps IH]; intros page; [done|]. simpl. by rewrite IH.
Qed.
End Loops.

(** ** The [try] statement of the push handler *)

Section Incremental.
Variables cal spath : string.
Variable rs : option string.

Implicit Types (ps : list list_result) (state : sync_state) (w : world).

(** A run whose pages all arrive: the state after the last page is
    written once, at the end. *)
Lemma incremental_success ps last rest state w :
  Forall has_more ps ->
  truthy (nextPageToken last) = false ->
  list_feed w = (Answer <$> ps) ++ Answer last :: rest ->
  let st' := SyncState
               (process_items cal (events state) (all_items (ps ++ [last]))).1
               (next_cursor last state) in
  let t := pages_trace cal (syncToken state) (events state) None (ps ++ [last])
           ++ ESaveState spath st'
           :: (if decide (all_items (ps ++ [last]) = [])
               then [EPrint (NoDiffs cal rs)] else []) in
  incremental cal spath rs state w
  = (Ret tt,
     set_state_files (<[spath := st']> (state_files w))
       (set_list_feed rest (emits t w))).
Proof.
  intros Hmore Hlast Hfeed st' t. subst st' t.
  unfold incremental. rewrite Hfeed, sync_loop_pages by done.
  rewrite pages_trace_snoc, all_items_snoc, process_items_app.
  cbn [sync_loop events syncToken fst snd].
  destruct (process_items cal
              (process_items cal (events state) (all_items ps)).1
              (items last)) as [evs t] eqn:E.
  rewrite Hlast. cbn [fst snd].
  replace (next_cursor last (SyncState evs (syncToken state)))
    with (next_cursor last state) by done.
  destruct (decide (all_items ps ++ items last = [])) as [Hnil|Hne].
  - apply app_eq_nil in Hnil as [H1 H2]. rewrite H1, H2. cbn.
    f_equal. world_eq.
  - assert ((0 + length (all_items ps) + length (items last) =? 0)%nat = false)
      as ->.
    { apply Nat.eqb_neq. intros H0.
      apply Hne, length_zero_iff_nil. rewrite length_app. lia. }
    f_equal. world_eq.
Qed.

(** A run cut short by an exception of [execute()]. *)
Lemma sync_loop_fails ps e rest state w :
  Forall has_more ps ->
  sync_loop cal spath ((Answer <$> ps) ++ Fails e :: rest) state None 0 w
  = ((Raise e,
      SyncState (process_items cal (events state) (all_items ps)).1
                (syncToken state)),
     set_list_feed rest
       (emits (pages_trace cal (syncToken state) (events state) None ps
               ++ [EList (IncrementalList cal (syncToken state)
                            (page_after None ps))]) w)).
Proof.
  intros Hmore. rewrite sync_loop_pages by done.
  cbn [sync_loop events syncToken]. f_equal. world_eq.
Qed.

Lemma incremental_gone ps rest state w :
  Forall has_more ps ->
  list_feed w = (Answer <$> ps) ++ Fails (HttpError 410) :: rest ->
  let st' := SyncState (process_items cal (events state) (all_items ps)).1
                       None in
  incremental cal spath rs state w
  = (Ret tt,
     set_state_files (<[spath := st']> (state_files w))
       (set_list_feed rest
          (emits (pages_trace cal (syncToken state) (events state) None ps
                  ++ [EList (IncrementalList cal (syncToken state)
                               (page_after None ps));
                      EPrint (TokenExpired cal);
                      ESaveState spath st']) w))).
Proof.
  intros Hmore Hfeed st'. subst st'.
  unfold incremental. rewrite Hfeed, sync_loop_fails by done.
  cbn. f_equal. world_eq.
Qed.

Lemma incremental_http_error ps status rest state w :
  Forall has_more ps ->
  status <> 410 ->
  list_feed w = (Answer <$> ps) ++ Fails (HttpError status) :: rest ->
  incremental cal spath rs state w
  = (Ret tt,
     set_list_feed rest
       (emits (pages_trace cal (syncToken state) (events state) None ps
               ++ [EList (IncrementalList cal (syncToken state)
                            (page_after None ps));
                   EPrint (HttpErrorLogged cal status)]) w)).
Proof.
  intros Hmore Hst Hfeed.
  unfold incremental. rewrite Hfeed, sync_loop_fails by done.
  apply Nat.eqb_neq in Hst. rewrite Hst. f_equal. world_eq.
Qed.

Lemma incremental_other_error ps rest state w :
  Forall has_more ps ->
  list_feed w = (Answer <$> ps) ++ Fails OtherError :: rest ->
  incremental cal spath rs state w
  = (Raise OtherError,
     set_list_feed rest
       (emits (pages_trace cal (syncToken state) (events state) None ps
               ++ [EList (IncrementalList cal (syncToken state)
                            (page_after None ps))]) w)).
Proof.
  intros Hmore Hfeed.
  unfold incremental. by rewrite Hfeed, sync_loop_fails.
Qed.
End Incremental.

(** ** Bootstrap *)

Section Baseline.
Variable cal : string.

Implicit Types (ps : list list_result) (state : sync_state) (w : world)
  (m : gmap string (option string)).

Lemma ensure_baseline_success ps last rest state w :
  truthy (syncToken state) = false ->
  Forall has_more ps ->
  truthy (nextPageToken last) = false ->
  list_feed w = (Answer <$> ps) ++ Answer last :: rest ->
  ensure_baseline cal state w
  = (Ret (SyncState (foldl baseline_item ∅ (all_items (ps ++ [last])))
                    (nextSyncToken last)),
     set_list_feed rest (emits (baseline_trace cal None (ps ++ [last])) w)).
Proof.
  intros Hno Hmore Hlast Hfeed.
  unfold ensure_baseline. rewrite Hno, Hfeed, baseline_loop_pages by done.
  rewrite baseline_trace_snoc, all_items_snoc, foldl_app.
  cbn [baseline_loop]. rewrite Hlast. f_equal. world_eq.
Qed.

Lemma ensure_baseline_fails ps e rest state w :
  truthy (syncToken state) = false ->
  Forall has_more ps ->
  list_feed w = (Answer <$> ps) ++ Fails e :: rest ->
  ensure_baseline cal state w
  = (Raise e,
     set_list_feed rest
       (emits (baseline_trace cal None ps
               ++ [EList (BaselineList cal (page_after None ps))]) w)).
Proof.
  intros Hno Hmore Hfeed.
  unfold ensure_baseline. rewrite Hno, Hfeed, baseline_loop_pages by done.
  cbn [baseline_loop]. f_equal. world_eq.
Qed.

(** The baseline map, key by key: the etag of the last active item
    with that id. *)
Lemma baseline_items_lookup l : forall m i,
  foldl baseline_item m l !! i =
  match last (filter (fun ev => ¬ cancelled ev /\ ev_id ev = i) l) with
  | Some ev => Some (ev_etag ev)
  | None => m !! i
  end.
Proof.
  induction l as [|ev l IH] using rev_ind; intros m i; [done|].
  rewrite foldl_app, filter_app. simpl.
  unfold baseline_item at 1. fold (cancelled ev).
  rewrite filter_cons, filter_nil.
  destruct (decide (cancelled ev)) as [Hc|Hc].
  - rewrite decide_False by tauto. rewrite app_nil_r. apply IH.
  - destruct (decide (ev_id ev = i)) as [Hi|Hi].
    + rewrite decide_True by tauto. rewrite last_snoc. subst i.
      apply lookup_insert_eq.
    + rewrite decide_False by tauto. rewrite app_nil_r.
      rewrite lookup_insert_ne by done. apply IH.
Qed.
End Baseline.

(** ** Bootstrap completeness *)

Lemma baseline_items_to_map l :
  foldl baseline_item ∅ l = list_to_map (reverse (binding <$> active l)).
Proof.
  induction l as [|ev l IH] using rev_ind; [done|].
  unfold active in *. rewrite foldl_app, filter_app. simpl.
  unfold baseline_item at 1. fold (cancelled ev).
  rewrite filter_cons, filter_nil.
  destruct (decide (cancelled ev)) as [Hc|Hc].
  - rewrite decide_False by tauto. by rewrite app_nil_r.
  - rewrite decide_True by done.
    rewrite fmap_app, reverse_app. simpl. by rewrite IH.
Qed.

Lemma baseline_items_dom l :
  dom (foldl baseline_item ∅ l) = list_to_set (ev_id <$> active l).
Proof.
  rewrite baseline_items_to_map, dom_list_to_map_L.
  apply set_eq. intros i.
  rewrite !elem_of_list_to_set, fmap_reverse, elem_of_reverse.
  by rewrite <- list_fmap_compose.
Qed.

Lemma baseline_items_distinct l :
  NoDup (ev_id <$> active l) ->
  size (foldl baseline_item ∅ l) = length (active l)
  /\ forall ev, ev ∈ active l ->
       foldl baseline_item ∅ l !! ev_id ev = Some (ev_etag ev).
Proof.
  intros Hnd. rewrite baseline_items_to_map.
  assert (NoDup (reverse (binding <$> active l)).*1) as Hnd'.
  { rewrite fmap_reverse, <- list_fmap_compose.
    by rewrite reverse_Permutation. }
  split.
  - rewrite map_size_list_to_map by done.
    by rewrite length_reverse, length_fmap.
  - intros ev Hin. apply elem_of_list_to_map_1; [done|].
    apply elem_of_reverse. by apply (list_elem_of_fmap_2 binding).
Qed.

(** C4: Bootstrap from a state with no cursor, fed any sequence of
    baseline pages, returns a state whose items map tracks exactly the ids
    of the active items (with distinct ids: as many entries as active
    items, each id mapped to its etag), whose cursor is the final page's
    [nextSyncToken], and performs no diff print and no downstream POST;
    with no items at all the map is empty and the cursor is set the same
    way. *)
Theorem bootstrap_complete cal state ps last rest w :
  truthy (syncToken state) = false ->
  Forall has_more ps ->
  truthy (nextPageToken last) = false ->
  list_feed w = (Answer <$> ps) ++ Answer last :: rest ->
  exists st' w',
    ensure_baseline cal state w = (Ret st', w')
    /\ dom (events st')
       = list_to_set (ev_id <$> active (all_items (ps ++ [last])))
    /\ (NoDup (ev_id <$> active (all_items (ps ++ [last]))) ->
        size (events st') = length (active (all_items (ps ++ [last])))
        /\ forall ev, ev ∈ active (all_items (ps ++ [last])) ->
             events st' !! ev_id ev = Some (ev_etag ev))
    /\ syncToken st' = nextSyncToken last
    /\ diff_events (since w w') = []
    /\ posts (since w w') = []
    /\ (all_items (ps ++ [last]) = [] -> events st' = ∅).
Proof.
  intros Hno Hmore Hlast Hfeed.
  eexists _, _. split; [by apply ensure_baseline_success|]. simpl.
  rewrite (since_app w _ (baseline_trace cal None (ps ++ [last]))) by done.
  destruct (baseline_trace_quiet cal (ps ++ [last]) None) as (Hd & Hp & _).
  repeat split; try done.
  - apply baseline_items_dom.
  - by apply baseline_items_distinct.
  - by apply baseline_items_distinct.
  - by intros ->.
Qed.

(** ** Replay *)

(** C1 (as amended): an active item whose etag equals the stored one
    prints no diff line and leaves the map as it is; and when a successful
    Incremental run is followed by a second run over the same pages, on the
    state the first one persisted, the second run persists the same items
    map, whatever the pages; it prints no diff line provided the item ids
    of the pages are pairwise distinct and every active item carries an
    etag. *)
Theorem incremental_replay cal spath rs state ps last w :
  Forall has_more ps ->
  truthy (nextPageToken last) = false ->
  (forall evs ev e,
     ¬ cancelled ev -> ev_etag ev = Some e ->
     evs !! ev_id ev = Some (Some e) ->
     (process_event cal evs ev).1 = evs
     /\ diff_events (process_event cal evs ev).2 = [])
  /\ exists st1 w1 st2 w2,
       incremental cal spath rs state
         (set_list_feed ((Answer <$> ps) ++ [Answer last]) w) = (Ret tt, w1)
       /\ state_files w1 !! spath = Some st1
       /\ incremental cal spath rs st1
            (set_list_feed ((Answer <$> ps) ++ [Answer last]) w1) = (Ret tt, w2)
       /\ state_files w2 !! spath = Some st2
       /\ events st2 = events st1
       /\ (NoDup (ev_id <$> all_items (ps ++ [last])) ->
           (forall ev, ev ∈ all_items (ps ++ [last]) ->
                       ¬ cancelled ev -> is_Some (ev_etag ev)) ->
           diff_events (since w1 w2) = []).
Proof.
  intros Hmore Hlast. split.
  { intros evs ev e Hc He Hl. apply process_event_settled.
    unfold settled. rewrite decide_False by done. eauto. }
  eexists _, _, _, _.
  split; [by apply (incremental_success cal spath rs ps last [])|].
  cbn [state_files set_state_files set_list_feed emits].
  split; [apply lookup_insert_eq|].
  split; [by apply (incremental_success cal spath rs ps last [])|].
  cbn [state_files set_state_files set_list_feed emits events].
  split; [apply lookup_insert_eq|].
  split; [apply process_items_replay_map|].
  intros Hnd Hetag.
  erewrite since_app; [|cbn [trace]; reflexivity].
  rewrite diff_events_app, pages_trace_diff_events. cbn [events syncToken].
  destruct (process_items_settled cal (all_items (ps ++ [last])) _
              (process_items_settles cal _ (events state) Hnd Hetag))
    as [_ ->].
  simpl. by case_decide.
Qed.

Lemma incremental_replay_witness :
  exists st1 w1 st2 w2,
    incremental "cal" "p" None state_a
      (set_list_feed [Answer (page_abc (Some "c1"))]
         (example_world [] [] ∅ ∅)) = (Ret tt, w1)
    /\ state_files w1 !! "p" = Some st1
    /\ incremental "cal" "p" None st1
         (set_list_feed [Answer (page_abc (Some "c1"))] w1) = (Ret tt, w2)
    /\ state_files w2 !! "p" = Some st2
    /\ events st2 = events st1
    /\ diff_events (since w1 w2) = [].
Proof.
  destruct (incremental_replay "cal" "p" None state_a []
              (page_abc (Some "c1")) (example_world [] [] ∅ ∅))
    as [_ (st1 & w1 & st2 & w2 & H1 & H2 & H3 & H4 & H5 & H6)];
    [constructor | reflexivity |].
  exists st1, w1, st2, w2. repeat split; try assumption.
  apply H6.
  - compute_done.
  - apply (proj1 (Forall_forall
                    (fun ev => ¬ cancelled ev -> is_Some (ev_etag ev)) _)).
    compute_done.
Defined.

(** C1 as stated fails: a page that carries one id twice, with two
    different etags, makes the second run print diff lines again. *)
Lemma incremental_replay_counterexample :
  let feed := [Answer page_twice] in
  let w0 := example_world feed [] ∅ ∅ in
  let st0 := SyncState ∅ (Some "c0") in
  let w1 := (incremental "cal" "p" None st0 w0).2 in
  let st1 := default default_state (state_files w1 !! "p") in
  let w2 := (incremental "cal" "p" None st1 (set_list_feed feed w1)).2 in
  (incremental "cal" "p" None st0 w0).1 = Ret tt
  /\ (incremental "cal" "p" None st1 (set_list_feed feed w1)).1 = Ret tt
  /\ events st1 = {[ "a" := Some "e2" ]}
  /\ diff_events (since w1 w2) = [(Updated, "a"); (Updated, "a")]
  /\ diff_events (since w1 w2) <> [].
Proof. vm_compute. repeat split; discriminate. Qed.

(** ** Classification *)

(** C2: from prior state [{a: "e1"}], the page
    [[{id:a, etag:"e2"}, {id:b, etag:"e1"}, {id:c, cancelled}]] makes
    Incremental print exactly Updated(a) and Created(b), nothing for c
    (and POST twice), and persist the items [{a: "e2", b: "e1"}]. *)
Theorem classification_example cal spath rs next rest w :
  exists w',
    incremental cal spath rs state_a
      (set_list_feed (Answer (page_abc next) :: rest) w) = (Ret tt, w')
    /\ diff_events (since w w') = [(Updated, "a"); (Created, "b")]
    /\ posts (since w w') = [cal; cal]
    /\ events <$> state_files w' !! spath
       = Some {[ "a" := Some "e2"; "b" := Some "e1" ]}.
Proof.
  eexists. split.
  { by apply (incremental_success cal spath rs [] (page_abc next) rest). }
  cbn [state_files set_state_files set_list_feed emits].
  erewrite since_app; [|cbn [trace]; reflexivity].
  rewrite lookup_insert_eq. by vm_compute.
Qed.

Section Deletion.
Variable cal : string.

Implicit Types (evs : gmap string (option string)) (ev : event)
  (l : list event) (i : string).

Lemma diffs_about_app i t1 t2 :
  diffs_about i (t1 ++ t2) = diffs_about i t1 ++ diffs_about i t2.
Proof. unfold diffs_about. by rewrite diff_events_app, filter_app. Qed.

(** The diff lines of one item all carry that item's id. *)
Lemma process_event_diffs_about evs ev i :
  diffs_about i (process_event cal evs ev).2 =
  if decide (ev_id ev = i) then diff_events (process_event cal evs ev).2
  else [].
Proof.
  unfold diffs_about, process_event.
  destruct (decide (ev_id ev = i)) as [Hi|Hi];
    repeat case_decide; simpl; try done;
    try (destruct (mjoin _); simpl; try case_decide; simpl);
    rewrite ?filter_cons, ?filter_nil; simpl;
    try rewrite decide_True by done; try rewrite decide_False by done;
    done.
Qed.

Lemma process_items_diffs_about_other l : forall evs i,
  i ∉ ev_id <$> l -> diffs_about i (process_items cal evs l).2 = [].
Proof.
  induction l as [|ev l IH]; intros evs i Hni; simpl; [done|].
  apply not_elem_of_cons in Hni as [Hne Hni].
  pose proof (process_event_diffs_about evs ev i) as H.
  destruct (process_event cal evs ev) as [evs1 t1]. specialize (IH evs1 i Hni).
  destruct (process_items cal evs1 l) as [evs2 t2]. simpl in *.
  rewrite diffs_about_app, H, IH. by rewrite decide_False.
Qed.

(** With pairwise distinct ids, the diff lines about an item of the
    listing are those of its own turn, which finds under its id what
    the prior map held there. *)
Lemma process_items_diffs_about l evs ev :
  NoDup (ev_id <$> l) -> ev ∈ l ->
  exists evs',
    evs' !! ev_id ev = evs !! ev_id ev
    /\ diffs_about (ev_id ev) (process_items cal evs l).2
       = diff_events (process_event cal evs' ev).2
    /\ (process_items cal evs l).1 !! ev_id ev
       = (process_event cal evs' ev).1 !! ev_id ev.
Proof.
  intros Hnd Hin. apply list_elem_of_split in Hin as (l1 & l2 & ->).
  rewrite fmap_app, fmap_cons in Hnd.
  apply NoDup_app in Hnd as (_ & Hdisj & Hnd2).
  apply NoDup_cons in Hnd2 as [Hni2 _].
  assert (ev_id ev ∉ ev_id <$> l1) as Hni1.
  { intros Hin1. apply (Hdisj _ Hin1). left. }
  exists (process_items cal evs l1).1. split; [|split].
  - by rewrite process_items_lookup, last_op_not_in.
  - rewrite process_items_app. cbn [snd]. rewrite diffs_about_app.
    rewrite process_items_diffs_about_other by done. simpl.
    pose proof (process_event_diffs_about (process_items cal evs l1).1 ev
                  (ev_id ev)) as H.
    destruct (process_event cal (process_items cal evs l1).1 ev)
      as [evs1 t1].
    pose proof (process_items_diffs_about_other l2 evs1 _ Hni2) as H2.
    destruct (process_items cal evs1 l2) as [evs2 t2]. simpl in *.
    rewrite diffs_about_app, H, H2, app_nil_r. by rewrite decide_True.
  - rewrite process_items_app. cbn [fst]. simpl.
    destruct (process_event cal (process_items cal evs l1).1 ev)
      as [evs1 t1].
    pose proof (process_items_lookup cal l2 evs1 (ev_id ev)) as H2.
    destruct (process_items cal evs1 l2) as [evs2 t2]. simpl in *.
    by rewrite H2, last_op_not_in.
Qed.
End Deletion.

Lemma process_event_cancelled_present cal evs ev :
  cancelled ev -> is_Some (evs !! ev_id ev) ->
  process_event cal evs ev
  = (delete (ev_id ev) evs, [EPrint (Diff Deleted cal (ev_id ev)); EPost cal]).
Proof.
  intros Hc Hs. unfold process_event. fold (cancelled ev).
  by rewrite !decide_True.
Qed.

Lemma process_event_cancelled_absent cal evs ev :
  cancelled ev -> evs !! ev_id ev = None -> process_event cal evs ev = (evs, []).
Proof.
  intros Hc Hn. unfold process_event. fold (cancelled ev).
  rewrite decide_True by done. rewrite decide_False; [done|].
  rewrite Hn. by intros [? ?].
Qed.

(** C3: a cancelled item whose id is tracked makes Incremental print
    exactly one Deleted line for it and drop the id from the items map; a
    cancelled item whose id is not tracked prints nothing and changes
    nothing.  This holds for the turn of the item against the map as it
    then stands and, when the ids of the run are pairwise distinct, for the
    whole run against the prior map.  In particular prior [{a: "e1"}] with
    [[{id:a, cancelled}]] gives the single line Deleted(a) and leaves the
    items empty. *)
Theorem cancelled_items cal :
  (forall evs ev,
     cancelled ev -> is_Some (evs !! ev_id ev) ->
     (process_event cal evs ev).1 = delete (ev_id ev) evs
     /\ (process_event cal evs ev).1 !! ev_id ev = None
     /\ diff_events (process_event cal evs ev).2 = [(Deleted, ev_id ev)]
     /\ posts (process_event cal evs ev).2 = [cal])
  /\ (forall evs ev,
        cancelled ev -> evs !! ev_id ev = None ->
        process_event cal evs ev = (evs, []))
  /\ (forall spath rs evs tok ps last rest w ev,
        Forall has_more ps ->
        truthy (nextPageToken last) = false ->
        NoDup (ev_id <$> all_items (ps ++ [last])) ->
        ev ∈ all_items (ps ++ [last]) ->
        cancelled ev ->
        exists st' w',
          incremental cal spath rs (SyncState evs tok)
            (set_list_feed ((Answer <$> ps) ++ Answer last :: rest) w)
          = (Ret tt, w')
          /\ state_files w' !! spath = Some st'
          /\ events st' !! ev_id ev = None
          /\ diffs_about (ev_id ev) (since w w')
             = if decide (is_Some (evs !! ev_id ev))
               then [(Deleted, ev_id ev)] else [])
  /\ (forall spath rs next rest w,
        exists w',
          incremental cal spath rs state_a
            (set_list_feed (Answer (page_del_a next) :: rest) w) = (Ret tt, w')
          /\ diff_events (since w w') = [(Deleted, "a")]
          /\ events <$> state_files w' !! spath = Some ∅).
Proof.
  split; [|split; [|split]].
  - intros evs ev Hc Hs.
    rewrite process_event_cancelled_present by done. simpl.
    split; [done|]. split; [apply lookup_delete_eq|done].
  - apply process_event_cancelled_absent.
  - intros spath rs evs tok ps last rest w ev Hmore Hlast Hnd Hin Hc.
    eexists _, _. split.
    { by apply (incremental_success cal spath rs ps last rest). }
    cbn [state_files set_state_files set_list_feed emits events syncToken].
    split; [apply lookup_insert_eq|].
    erewrite since_app; [|cbn [trace]; reflexivity].
    destruct (process_items_diffs_about cal _ evs ev Hnd Hin)
      as (evs' & Hsame & Hdiffs & Hlook).
    cbn [events]. split.
    + rewrite Hlook, process_event_lookup. by rewrite !decide_True.
    + rewrite diffs_about_app. unfold diffs_about at 1.
      rewrite pages_trace_diff_events. fold (diffs_about (ev_id ev)
        (process_items cal evs (all_items (ps ++ [last]))).2).
      rewrite Hdiffs, <- Hsame.
      assert (forall t, diffs_about (ev_id ev)
                (ESaveState spath
                   (SyncState
                      (process_items cal evs (all_items (ps ++ [last]))).1
                      (next_cursor last (SyncState evs tok))) :: t)
              = diffs_about (ev_id ev) t) as -> by done.
      assert (diffs_about (ev_id ev)
                (if decide (all_items (ps ++ [last]) = [])
                 then [EPrint (NoDiffs cal rs)] else []) = []) as ->
        by (by case_decide).
      rewrite app_nil_r. destruct (decide (is_Some (evs' !! ev_id ev))).
      * by rewrite process_event_cancelled_present.
      * rewrite process_event_cancelled_absent; [done..|].
        by apply eq_None_not_Some.
  - intros spath rs next rest w. eexists. split.
    { by apply (incremental_success cal spath rs [] (page_del_a next) rest). }
    cbn [state_files set_state_files set_list_feed emits].
    erewrite since_app; [|cbn [trace]; reflexivity].
    rewrite lookup_insert_eq. by vm_compute.
Qed.

Lemma cancelled_items_witness :
  (process_event "cal" {[ "a" := Some "e1" ]}
     (Event "a" (Some "cancelled") None)).1 = delete "a" {[ "a" := Some "e1" ]}
  /\ (process_event "cal" {[ "a" := Some "e1" ]}
        (Event "a" (Some "cancelled") None)).1 !! "a" = None
  /\ diff_events (process_event "cal" {[ "a" := Some "e1" ]}
                    (Event "a" (Some "cancelled") None)).2 = [(Deleted, "a")]
  /\ posts (process_event "cal" {[ "a" := Some "e1" ]}
              (Event "a" (Some "cancelled") None)).2 = ["cal"].
Proof.
  apply (proj1 (cancelled_items "cal") {[ "a" := Some "e1" ]}
           (Event "a" (Some "cancelled") None)).
  - reflexivity.
  - exists (Some "e1"). reflexivity.
Defined.

Lemma bootstrap_complete_witness :
  exists st' w',
    ensure_baseline "cal" default_state
      (example_world [Answer baseline_page1; Answer baseline_page2] [] ∅ ∅)
    = (Ret st', w')
    /\ dom (events st') = {[ "a"; "b" ]}
    /\ size (events st') = 2
    /\ events st' !! "b" = Some (Some "e2")
    /\ syncToken st' = Some "c1"
    /\ diff_events
         (since (example_world [Answer baseline_page1; Answer baseline_page2]
                   [] ∅ ∅) w') = [].
Proof.
  destruct (bootstrap_complete "cal" default_state [baseline_page1]
              baseline_page2 []
              (example_world [Answer baseline_page1; Answer baseline_page2]
                 [] ∅ ∅))
    as (st' & w' & H1 & H2 & H3 & H4 & H5 & H6 & H7);
    [reflexivity | by repeat constructor | reflexivity | reflexivity |].
  destruct H3 as [H3a H3b]; [compute_done|].
  exists st', w'.
  split; [exact H1|].
  split; [rewrite H2; compute_done|].
  split; [exact H3a|].
  split; [apply (H3b (Event "b" (Some "confirmed") (Some "e2"))); compute_done|].
  split; assumption.
Defined.

(** ** Cursor expiry *)

Lemma page_tokens_snoc ps : forall page : option string,
  take (length ps) (page :: (nextPageToken <$> ps)) ++ [page_after page ps]
  = page :: (nextPageToken <$> ps).
Proof.
  induction ps as [|p ps IH]; intros page; [done|].
  simpl. f_equal. apply IH.
Qed.

Lemma page_tokens_init ps last (page : option string) :
  take (length (ps ++ [last])) (page :: (nextPageToken <$> ps ++ [last]))
  = page :: (nextPageToken <$> ps).
Proof.
  rewrite fmap_app, length_app. simpl.
  rewrite (app_comm_cons _ _ page).
  rewrite take_app_length'; [done|]. simpl. rewrite length_fmap. lia.
Qed.

(** C5 (as amended): when a listing of Incremental is answered 410, the
    run ends normally with the cursor cleared and persisted; only
    incremental listings were requested (no baseline listing: nothing is
    re-bootstrapped in this call).  The items persisted, and the diff lines
    and POSTs emitted, are those of the pages consumed before the 410:
    when it answers the first request, the items are the prior ones and
    nothing is emitted. *)
Theorem cursor_gone cal spath rs state ps rest w :
  Forall has_more ps ->
  list_feed w = (Answer <$> ps) ++ Fails (HttpError 410) :: rest ->
  exists st' w',
    incremental cal spath rs state w = (Ret tt, w')
    /\ state_files w' = <[spath := st']> (state_files w)
    /\ saves (since w w') = [(spath, st')]
    /\ syncToken st' = None
    /\ events st' = (process_items cal (events state) (all_items ps)).1
    /\ diff_events (since w w')
       = diff_events (process_items cal (events state) (all_items ps)).2
    /\ posts (since w w')
       = posts (process_items cal (events state) (all_items ps)).2
    /\ listings (since w w')
       = IncrementalList cal (syncToken state)
           <$> (None :: (nextPageToken <$> ps))
    /\ (ps = [] ->
        events st' = events state
        /\ diff_events (since w w') = []
        /\ posts (since w w') = []).
Proof.
  intros Hmore Hfeed. eexists _, _.
  split; [by apply incremental_gone|].
  cbn [state_files set_state_files set_list_feed emits].
  erewrite since_app; [|cbn [trace]; reflexivity].
  rewrite saves_app, diff_events_app, posts_app, listings_app.
  rewrite pages_trace_saves, pages_trace_diff_events, pages_trace_posts,
    pages_trace_listings.
  cbn [events syncToken]. simpl.
  rewrite !app_nil_r.
  change (IncrementalList cal (syncToken state) None
          :: (IncrementalList cal (syncToken state) <$> (nextPageToken <$> ps)))
    with (IncrementalList cal (syncToken state)
            <$> (None :: (nextPageToken <$> ps))).
  rewrite <- fmap_snoc, page_tokens_snoc.
  do 7 (split; [done|]). by intros ->.
Qed.

Lemma cursor_gone_witness :
  exists st' w',
    incremental "cal" "p" None state_a
      (example_world [Fails (HttpError 410)] [] {[ "p" := state_a ]} ∅)
    = (Ret tt, w')
    /\ state_files w' !! "p" = Some st'
    /\ syncToken st' = None
    /\ events st' = events state_a
    /\ diff_events
         (since (example_world [Fails (HttpError 410)] []
                   {[ "p" := state_a ]} ∅) w') = [].
Proof.
  destruct (cursor_gone "cal" "p" None state_a [] []
              (example_world [Fails (HttpError 410)] [] {[ "p" := state_a ]} ∅))
    as (st' & w' & H1 & H2 & H3 & H4 & H5 & H6 & H7 & H8 & H9);
    [constructor | reflexivity |].
  destruct H9 as (H9a & H9b & H9c); [reflexivity|].
  exists st', w'. repeat split; try assumption.
  rewrite H2. apply lookup_insert_eq.
Defined.

(** C5 as stated fails: a 410 that answers the second page request
    leaves the first page's item in the persisted map, and its diff line
    has been printed. *)
Lemma cursor_gone_counterexample :
  let w := example_world [Answer page_more; Fails (HttpError 410)] []
             {[ "p" := state_a ]} ∅ in
  let r := incremental "cal" "p" None state_a w in
  r.1 = Ret tt
  /\ syncToken <$> state_files r.2 !! "p" = Some None
  /\ events <$> state_files r.2 !! "p"
     = Some {[ "a" := Some "e1"; "b" := Some "e1" ]}
  /\ events <$> state_files r.2 !! "p" <> Some (events state_a)
  /\ diff_events (since w r.2) = [(Created, "b")]
  /\ diff_events (since w r.2) <> [].
Proof. vm_compute. repeat split; discriminate. Qed.

(** ** Persisting the state *)

(** C6: a successful Incremental run over any number of pages writes
    the state exactly once, after every page has been requested and
    classified; the cursor written is the final page's [nextSyncToken], or
    the prior cursor when the final page has none. *)
Theorem persisted_once cal spath rs state ps last rest w :
  Forall has_more ps ->
  truthy (nextPageToken last) = false ->
  list_feed w = (Answer <$> ps) ++ Answer last :: rest ->
  exists st' w' t1 t2,
    incremental cal spath rs state w = (Ret tt, w')
    /\ since w w' = t1 ++ ESaveState spath st' :: t2
    /\ saves t1 = [] /\ saves t2 = []
    /\ listings t1
       = IncrementalList cal (syncToken state)
           <$> (None :: (nextPageToken <$> ps))
    /\ listings t2 = [] /\ diff_events t2 = [] /\ posts t2 = []
    /\ diff_events t1
       = diff_events
           (process_items cal (events state) (all_items (ps ++ [last]))).2
    /\ state_files w' = <[spath := st']> (state_files w)
    /\ events st'
       = (process_items cal (events state) (all_items (ps ++ [last]))).1
    /\ syncToken st' = match nextSyncToken last with
                       | Some c => Some c
                       | None => syncToken state
                       end.
Proof.
  intros Hmore Hlast Hfeed. eexists _, _, _, _.
  split; [by apply incremental_success|].
  cbn [state_files set_state_files set_list_feed emits].
  split; [erewrite since_app; [|cbn [trace]; reflexivity]; reflexivity|].
  rewrite pages_trace_saves, pages_trace_listings, pages_trace_diff_events.
  rewrite page_tokens_init.
  repeat split; try done; by case_decide.
Qed.

Lemma persisted_once_witness :
  exists st' w' t1 t2,
    incremental "cal" "p" None state_a
      (example_world [Answer page_more; Answer (page_abc None)] []
         {[ "p" := state_a ]} ∅) = (Ret tt, w')
    /\ since (example_world [Answer page_more; Answer (page_abc None)] []
                {[ "p" := state_a ]} ∅) w'
       = t1 ++ ESaveState "p" st' :: t2
    /\ saves t1 = [] /\ saves t2 = []
    /\ listings t1 = [IncrementalList "cal" (Some "c0") None;
                      IncrementalList "cal" (Some "c0") (Some "p2")]
    /\ syncToken st' = Some "c0".
Proof.
  destruct (persisted_once "cal" "p" None state_a [page_more] (page_abc None) []
              (example_world [Answer page_more; Answer (page_abc None)] []
                 {[ "p" := state_a ]} ∅))
    as (st' & w' & t1 & t2 & H1 & H2 & H3 & H4 & H5 & H6 & H7 & H8 & H9
        & H10 & H11 & H12);
    [by repeat constructor | reflexivity | reflexivity |].
  exists st', w', t1, t2. repeat split; assumption.
Defined.

(** ** The push handler *)

Section Push.
Variable rs : option string.

Lemma calendar_push_unknown channel_id w :
  channel_id ≫= (fun c => channels_file w !! c) = None ->
  calendar_push channel_id rs w = (Ret (Response 200), emit ELoadChannels w).
Proof.
  intros H. unfold calendar_push, bind, load_channels. cbn.
  by rewrite H.
Qed.

Lemma calendar_push_synced ch meta state w :
  channels_file w !! ch = Some meta ->
  service_ok w = true ->
  state_files w !! state_path (calendar_id meta) = Some state ->
  truthy (syncToken state) = true ->
  calendar_push (Some ch) rs w =
  match incremental (calendar_id meta) (state_path (calendar_id meta)) rs
          state
          (emits [ELoadChannels; EGetService;
                  ELoadState (state_path (calendar_id meta))] w) with
  | (Ret _, w') => (Ret (Response 200), w')
  | (Raise e, w') => (Raise e, w')
  end.
Proof.
  intros Hch Hok Hst Htok.
  unfold calendar_push, bind, load_channels, get_service, load_json, ret.
  cbn. rewrite Hch. cbn. rewrite Hok. cbn. rewrite Hst. cbn. rewrite Htok.
  match goal with
  | |- match incremental _ _ _ _ ?w1 with _ => _ end
       = match incremental _ _ _ _ ?w2 with _ => _ end =>
      replace w1 with w2 by world_eq
  end.
  done.
Qed.

Lemma calendar_push_bootstrapped ch meta ps last rest w :
  channels_file w !! ch = Some meta ->
  service_ok w = true ->
  truthy (syncToken (default default_state
                       (state_files w !! state_path (calendar_id meta))))
  = false ->
  Forall has_more ps -> truthy (nextPageToken last) = false ->
  list_feed w = (Answer <$> ps) ++ Answer last :: rest ->
  let cal := calendar_id meta in
  let st' := SyncState (foldl baseline_item ∅ (all_items (ps ++ [last])))
                       (nextSyncToken last) in
  calendar_push (Some ch) rs w =
  match incremental cal (state_path cal) rs st'
          (set_state_files (<[state_path cal := st']> (state_files w))
             (set_list_feed rest
                (emits ([ELoadChannels; EGetService;
                         ELoadState (state_path cal)]
                        ++ baseline_trace cal None (ps ++ [last])
                        ++ [ESaveState (state_path cal) st']) w))) with
  | (Ret _, w') => (Ret (Response 200), w')
  | (Raise e, w') => (Raise e, w')
  end.
Proof.
  intros Hch Hok Htok Hmore Hlast Hfeed cal st'. subst cal st'.
  unfold calendar_push, bind, load_channels, get_service, load_json, ret.
  cbn. rewrite Hch. cbn. rewrite Hok. cbn. rewrite Htok.
  erewrite (ensure_baseline_success _ ps last rest); [|done..].
  cbn.
  match goal with
  | |- match incremental _ _ _ _ ?w1 with _ => _ end
       = match incremental _ _ _ _ ?w2 with _ => _ end =>
      replace w1 with w2 by world_eq
  end.
  done.
Qed.

Lemma incremental_returns cal spath state w :
  sync_feed (list_feed w) ->
  exists w', incremental cal spath rs state w = (Ret tt, w').
Proof.
  intros Hfeed. inversion Hfeed as [ps last rest Hm Hl Heq|ps s rest Hm Heq].
  - eexists. by apply (incremental_success cal spath rs ps last rest).
  - destruct (decide (s = 410)) as [->|Hne].
    + eexists. by apply (incremental_gone cal spath rs ps rest).
    + eexists. by apply (incremental_http_error cal spath rs ps s rest).
Qed.
End Push.

(** C10: a push whose channel-id header is missing or names no known
    channel is answered 200 after reading the channel registry and nothing
    else: no state record is read or written, no provider call is made,
    nothing is printed or posted, and the files are left as they were. *)
Theorem unknown_channel_frame channel_id rs w :
  channel_id = None
  \/ (exists c, channel_id = Some c /\ channels_file w !! c = None) ->
  exists w',
    calendar_push channel_id rs w = (Ret (Response 200), w')
    /\ since w w' = [ELoadChannels]
    /\ state_files w' = state_files w
    /\ channels_file w' = channels_file w
    /\ list_feed w' = list_feed w
    /\ watch_feed w' = watch_feed w.
Proof.
  intros H. exists (emit ELoadChannels w). split.
  - apply calendar_push_unknown.
    destruct H as [->|(c & -> & Hc)]; [done|]. by simpl.
  - split; [by apply since_app|done].
Qed.

Lemma unknown_channel_frame_witness :
  exists w',
    calendar_push (Some "gone") (Some "exists")
      (example_world [Answer (page_abc None)] [] stored_a one_channel)
    = (Ret (Response 200), w')
    /\ since (example_world [Answer (page_abc None)] [] stored_a one_channel) w'
       = [ELoadChannels]
    /\ state_files w' = stored_a
    /\ channels_file w' = one_channel
    /\ list_feed w' = [Answer (page_abc None)]
    /\ watch_feed w' = [].
Proof.
  apply (unknown_channel_frame (Some "gone") (Some "exists")
           (example_world [Answer (page_abc None)] [] stored_a one_channel)).
  right. exists "gone". split; [reflexivity | by vm_compute].
Defined.

(** C7 (as amended): when a listing of Incremental fails with anything
    but a 410, the state files are left as they were and nothing is
    written.  If the failure is an [HttpError] the handler returns 200; an
    exception that is not an [HttpError] leaves the handler as it is. *)
Theorem provider_error_keeps_state ch rs meta state ps e rest w :
  channels_file w !! ch = Some meta ->
  service_ok w = true ->
  state_files w !! state_path (calendar_id meta) = Some state ->
  truthy (syncToken state) = true ->
  Forall has_more ps ->
  list_feed w = (Answer <$> ps) ++ Fails e :: rest ->
  e <> HttpError 410 ->
  exists r w',
    calendar_push (Some ch) rs w = (r, w')
    /\ state_files w' = state_files w
    /\ channels_file w' = channels_file w
    /\ saves (since w w') = []
    /\ r = match e with
           | HttpError _ => Ret (Response 200)
           | OtherError => Raise OtherError
           end.
Proof.
  intros Hch Hok Hst Htok Hmore Hfeed Hne.
  rewrite (calendar_push_synced rs ch meta state w) by done.
  destruct e as [status|].
  - erewrite (incremental_http_error _ _ rs ps status rest); [|done|congruence|done].
    rewrite emits_emits. eexists _, _. split; [done|].
    cbn [state_files channels_file set_list_feed emits].
    erewrite since_app; [|cbn [trace]; reflexivity].
    rewrite !saves_app, pages_trace_saves. done.
  - erewrite (incremental_other_error _ _ rs ps rest); [|done..].
    rewrite emits_emits. eexists _, _. split; [done|].
    cbn [state_files channels_file set_list_feed emits].
    erewrite since_app; [|cbn [trace]; reflexivity].
    rewrite !saves_app, pages_trace_saves. done.
Qed.

Lemma provider_error_keeps_state_witness :
  exists r w',
    calendar_push (Some "ch0") None
      (example_world [Answer page_more; Fails (HttpError 500)] []
         stored_a one_channel) = (r, w')
    /\ state_files w' = stored_a
    /\ channels_file w' = one_channel
    /\ saves (since (example_world [Answer page_more; Fails (HttpError 500)] []
                       stored_a one_channel) w') = []
    /\ r = Ret (Response 200).
Proof.
  apply (provider_error_keeps_state "ch0" None (ChannelInfo "cal" "res0" None)
           state_a [page_more] (HttpError 500) []
           (example_world [Answer page_more; Fails (HttpError 500)] []
              stored_a one_channel)).
  - by vm_compute.
  - reflexivity.
  - by vm_compute.
  - reflexivity.
  - by repeat constructor.
  - reflexivity.
  - discriminate.
Defined.

(** C7 as stated fails: a transport failure of the second page request
    is no [HttpError]; the exception leaves the handler, which returns no
    response. *)
Lemma provider_error_counterexample :
  let w := example_world [Answer page_more; Fails OtherError] []
             stored_a one_channel in
  (calendar_push (Some "ch0") None w).1 = Raise OtherError
  /\ (forall r, (calendar_push (Some "ch0") None w).1 <> Ret r)
  /\ state_files (calendar_push (Some "ch0") None w).2 = stored_a.
Proof. vm_compute. repeat split; intros; discriminate. Qed.

(** C8 (as amended): the push handler answers 200 when the channel id is
    missing or unknown and, for a known channel whose credentials load,
    when the baseline pages (if a baseline is needed) all arrive and the
    incremental listing either runs to its final page or is answered by an
    [HttpError], 410 or other. *)
Theorem push_acknowledged channel_id rs w :
  acknowledged channel_id w ->
  exists w', calendar_push channel_id rs w = (Ret (Response 200), w').
Proof.
  intros [Hunk|ch meta state -> Hch Hok Hst Htok Hfeed
          |ch meta ps last rest -> Hch Hok Htok Hmore Hlast Hfeed Hrest].
  - eexists. by apply calendar_push_unknown.
  - rewrite (calendar_push_synced rs ch meta state w) by done.
    destruct (incremental_returns rs (calendar_id meta)
                (state_path (calendar_id meta)) state
                (emits [ELoadChannels; EGetService;
                        ELoadState (state_path (calendar_id meta))] w))
      as [w' ->]; [done|].
    by eexists.
  - rewrite (calendar_push_bootstrapped rs ch meta ps last rest w) by done.
    cbv zeta.
    match goal with
    | |- context [incremental ?c ?p rs ?st ?w1] =>
        destruct (incremental_returns rs c p st w1) as [w' ->]; [done|]
    end.
    by eexists.
Qed.

Lemma push_acknowledged_witness :
  exists w',
    calendar_push (Some "ch0") (Some "exists")
      (example_world [Answer baseline_page1; Answer baseline_page2;
                      Fails (HttpError 503)] [] ∅ one_channel)
    = (Ret (Response 200), w').
Proof.
  apply (push_acknowledged (Some "ch0") (Some "exists")
           (example_world [Answer baseline_page1; Answer baseline_page2;
                           Fails (HttpError 503)] [] ∅ one_channel)).
  apply (ack_bootstrapped _ _ "ch0" (ChannelInfo "cal" "res0" None)
           [baseline_page1] baseline_page2 [Fails (HttpError 503)]).
  - reflexivity.
  - by vm_compute.
  - reflexivity.
  - by vm_compute.
  - by repeat constructor.
  - reflexivity.
  - reflexivity.
  - apply (sync_feed_http [] 503 []). constructor.
Defined.

(** C8 as stated fails: for a known channel with a stored cursor, a
    transport failure of the listing request is not caught; the handler
    raises instead of answering 200. *)
Lemma push_acknowledged_counterexample :
  let w := example_world [Fails OtherError] [] stored_a one_channel in
  (calendar_push (Some "ch0") (Some "exists") w).1 = Raise OtherError
  /\ (calendar_push (Some "ch0") (Some "exists") w).1 <> Ret (Response 200).
Proof. vm_compute. split; [reflexivity | discriminate]. Qed.

(** ** Registration *)

Section Registration.
Variable address : string.

Lemma baseline_loop_channels cal feed : forall m page w,
  channels_file (baseline_loop cal feed m page w).2 = channels_file w.
Proof.
  induction feed as [|[res|e] feed IH]; intros m page w; simpl; [done| |done].
  destruct (truthy (nextPageToken res)); [|done]. by rewrite IH.
Qed.

Lemma ensure_baseline_channels cal state w :
  channels_file (ensure_baseline cal state w).2 = channels_file w.
Proof.
  unfold ensure_baseline. destruct (truthy (syncToken state)); [done|].
  apply baseline_loop_channels.
Qed.

(** Handling one calendar never touches the registry file, and an
    entry it returns names that calendar. *)
Lemma register_calendar_channels cal w r w' :
  register_calendar address cal w = (r, w') ->
  channels_file w' = channels_file w
  /\ forall s, r = Ret s -> calendar_id (st_info s) = cal.
Proof.
  unfold register_calendar, bind, load_json, save_json, uuid4, watch, ret.
  cbn.
  pose proof (ensure_baseline_channels cal
                (default default_state (state_files w !! state_path cal))
                (emit (ELoadState (state_path cal)) w)) as Hch.
  destruct (ensure_baseline cal _ _) as [[st|e] w1]; cbn in *.
  - destruct (watch_feed w1) as [|[wr|e] f]; cbn;
      intros [= <- <-]; cbn; (split; [done|]); intros s [= <-]; done.
  - intros [= <- <-]. split; [done|]. intros s [=].
Qed.

Lemma registers_channels cals w ss w' :
  registers address cals w ss w' ->
  channels_file w' = channels_file w
  /\ (calendar_id ∘ st_info) <$> ss = cals.
Proof.
  induction 1 as [w|cal cals w s w1 ss w2 Hreg _ [IH1 IH2]]; [done|].
  destruct (register_calendar_channels _ _ _ _ Hreg) as [H1 H2].
  split; [congruence|]. rewrite fmap_cons, IH2. simpl.
  by rewrite (H2 s eq_refl).
Qed.

Lemma init_loop_registers cals w ss w' :
  registers address cals w ss w' ->
  forall channels started,
    init_loop address cals channels started w
    = (Ret (record_channels channels ss, started ++ ss), w').
Proof.
  induction 1 as [w|cal cals w s w1 ss w2 Hreg _ IH];
    intros channels started; simpl.
  - unfold ret. by rewrite app_nil_r.
  - unfold bind. rewrite Hreg, IH. by rewrite <- app_assoc.
Qed.

Lemma init_loop_aborts pre w ss w1 :
  registers address pre w ss w1 ->
  forall cal post e w2 channels started,
    register_calendar address cal w1 = (Raise e, w2) ->
    init_loop address (pre ++ cal :: post) channels started w = (Raise e, w2).
Proof.
  induction 1 as [w|c cals w s w1 ss w2 Hreg _ IH];
    intros cal post e w3 channels started Hfail; simpl; unfold bind.
  - by rewrite Hfail.
  - rewrite Hreg. by apply IH.
Qed.
End Registration.

(** C9 (as amended): with no callback address or no resources
    configured the registration endpoint answers 400 and touches nothing.
    Otherwise it handles the configured resources in order: when
    bootstrapping and registering succeed for every one of them it saves
    the registry, extended by the new channels, and reports one started
    entry per resource; when they fail for one resource the exception
    leaves the handler at once, so that the resources after it are not
    handled, no outcome is reported and the registry is not saved. *)
Theorem init_watch_batch cfg w :
  (truthy (WEBHOOK_ADDRESS cfg) = false \/ CALENDAR_IDS cfg = [] ->
   exists msg, init_watch cfg w = (Ret (JSONError msg 400), w))
  /\ (forall address,
        WEBHOOK_ADDRESS cfg = Some address -> address <> EmptyString ->
        CALENDAR_IDS cfg <> [] ->
        service_ok w = true ->
        (forall ss w1,
           registers address (CALENDAR_IDS cfg)
             (emits [EMakeDirs; EGetService; ELoadChannels] w) ss w1 ->
           init_watch cfg w
           = (Ret (JSONStarted ss),
              emit (ESaveChannels (record_channels (channels_file w) ss))
                (set_channels_file (record_channels (channels_file w) ss) w1))
           /\ (calendar_id ∘ st_info) <$> ss = CALENDAR_IDS cfg)
        /\ (forall pre cal post ss w1 e w2,
              CALENDAR_IDS cfg = pre ++ cal :: post ->
              registers address pre
                (emits [EMakeDirs; EGetService; ELoadChannels] w) ss w1 ->
              register_calendar address cal w1 = (Raise e, w2) ->
              init_watch cfg w = (Raise e, w2)
              /\ channels_file w2 = channels_file w)).
Proof.
  split.
  - intros [Hno|Hno]; unfold init_watch.
    + rewrite Hno. by eexists.
    + destruct (truthy (WEBHOOK_ADDRESS cfg)); simpl; [|by eexists].
      rewrite bool_decide_eq_true_2 by done. by eexists.
  - intros address Haddr Hne Hcals Hok.
    assert (truthy (WEBHOOK_ADDRESS cfg) = true) as Htruthy.
    { rewrite Haddr. simpl. apply negb_true_iff.
      by apply String.eqb_neq. }
    assert (init_watch cfg w
            = bind (init_loop address (CALENDAR_IDS cfg) (channels_file w) [])
                (fun r => bind (save_channels r.1)
                            (fun _ => ret (JSONStarted r.2)))
                (emits [EMakeDirs; EGetService; ELoadChannels] w)) as Hrun.
    { unfold init_watch. rewrite Htruthy, Haddr. simpl.
      rewrite bool_decide_eq_false_2 by done.
      unfold bind at 1. unfold ensure_dirs, tell.
      unfold bind at 1. unfold get_service. cbn. rewrite Hok.
      unfold bind at 1. unfold load_channels. cbn.
      f_equal. world_eq. }
    split.
    + intros ss w1 Hreg. rewrite Hrun. unfold bind at 1.
      rewrite (init_loop_registers address _ _ _ _ Hreg). simpl.
      split; [done|]. by apply (registers_channels address _ _ _ _ Hreg).
    + intros pre cal post ss w1 e w2 Hsplit Hreg Hfail.
      rewrite Hrun, Hsplit. unfold bind at 1.
      rewrite (init_loop_aborts address pre _ ss w1 Hreg cal post e w2 _ _ Hfail).
      split; [done|].
      destruct (register_calendar_channels address cal w1 _ _ Hfail) as [-> _].
      by destruct (registers_channels address _ _ _ _ Hreg) as [-> _].
Qed.

Lemma init_watch_batch_witness :
  let w := example_world [Answer baseline_page2; Answer baseline_page2]
             [Answer (WatchResult "res1" None); Fails (HttpError 403)] ∅ ∅ in
  (init_watch two_calendars w).1 = Raise (HttpError 403)
  /\ channels_file (init_watch two_calendars w).2 = ∅.
Proof.
  intros w.
  destruct (init_watch_batch two_calendars w) as [_ H].
  destruct (H "https://relay.example/calendar/push" eq_refl
              ltac:(discriminate) ltac:(discriminate) eq_refl) as [_ Habort].
  edestruct (Habort ["c1"] "c2" []) as [Heq Hch].
  - reflexivity.
  - eapply registers_cons; [vm_compute; reflexivity | apply registers_nil].
  - vm_compute. reflexivity.
  - rewrite Heq. split; [reflexivity | exact Hch].
Defined.

(** C9 as stated fails: when the baseline listing of the first of two
    calendars is answered by an error, the handler raises; the second
    calendar is never looked at (its state file is not read, no listing and
    no watch is requested for it) and no outcome is reported for either. *)
Lemma init_watch_batch_counterexample :
  let w := example_world [Fails (HttpError 500); Answer baseline_page2]
             [Answer (WatchResult "res1" None);
              Answer (WatchResult "res2" None)] ∅ ∅ in
  (init_watch two_calendars w).1 = Raise (HttpError 500)
  /\ (forall resp, (init_watch two_calendars w).1 <> Ret resp)
  /\ trace (init_watch two_calendars w).2
     = [EMakeDirs; EGetService; ELoadChannels;
        ELoadState (state_path "c1"); EList (BaselineList "c1" None)]
  /\ list_feed (init_watch two_calendars w).2 = [Answer baseline_page2]
  /\ watch_feed (init_watch two_calendars w).2
     = [Answer (WatchResult "res1" None); Answer (WatchResult "res2" None)]
  /\ state_files (init_watch two_calendars w).2 = ∅
  /\ channels_file (init_watch two_calendars w).2 = ∅.
Proof. vm_compute. repeat split; intros; discriminate. Qed.

(** When both calendars bootstrap and register, both are reported and
    both channels are saved. *)
Example init_watch_two_calendars :
  let w := example_world [Answer baseline_page2; Answer baseline_page2]
             [Answer (WatchResult "res1" None);
              Answer (WatchResult "res2" (Some "1700000000000"))] ∅ ∅ in
  (init_watch two_calendars w).1
  = Ret (JSONStarted
           [Started "ch0" (ChannelInfo "c1" "res1" None);
            Started "ch1" (ChannelInfo "c2" "res2" (Some "1700000000000"))])
  /\ channels_file (init_watch two_calendars w).2
     = {[ "ch0" := ChannelInfo "c1" "res1" None;
          "ch1" := ChannelInfo "c2" "res2" (Some "1700000000000") ]}
  /\ dom (state_files (init_watch two_calendars w).2)
     = {[ state_path "c1"; state_path "c2" ]}.
Proof. vm_compute. repeat split. Qed.

(** The inline baseline of the push handler sits outside its [try]: an
    [HttpError] raised there leaves the handler. *)
Example push_baseline_error :
  let w := example_world [Fails (HttpError 500)] [] ∅ one_channel in
  (calendar_push (Some "ch0") (Some "exists") w).1 = Raise (HttpError 500)
  /\ state_files (calendar_push (Some "ch0") (Some "exists") w).2 = ∅.
Proof. vm_compute. split; reflexivity. Qed.

(** The POST to the downstream endpoint is made for every active item,
    also for one whose etag is the stored one. *)
Example post_on_unchanged_item :
  process_event "cal" {[ "a" := Some "e1" ]}
    (Event "a" (Some "confirmed") (Some "e1"))
  = ({[ "a" := Some "e1" ]}, [EPost "cal"]).
Proof. vm_compute. reflexivity. Qed.

(** * Further properties *)

(** ** File names *)

Lemma safe_char_underscore : safe_char "_" = true.
Proof. reflexivity. Qed.

Lemma safe_name_from_safe s : forall in_run,
  safe_string (safe_name_from in_run s)
  /\ String.length (safe_name_from in_run s) <= String.length s.
Proof.
  unfold safe_string.
  induction s as [|c s IH]; intros in_run; simpl; [by split|].
  destruct (safe_char c) eqn:Hc; simpl.
  - destruct (IH false) as [H1 H2]. split; [by constructor|lia].
  - destruct in_run; simpl.
    + destruct (IH true) as [H1 H2]. split; [done|lia].
    + destruct (IH true) as [H1 H2]. split; [|lia].
      constructor; [apply safe_char_underscore|done].
Qed.

Lemma safe_name_from_fixed s : forall in_run,
  safe_string s -> safe_name_from in_run s = s.
Proof.
  unfold safe_string.
  induction s as [|c s IH]; intros in_run Hs; simpl in *; [done|].
  apply Forall_cons in Hs as [Hc Hs]. rewrite Hc. f_equal. by apply IH.
Qed.

(** X1: the name [safe_name] returns is made of characters of the
    class [A-Za-z0-9._-] only, and is never longer than its argument. *)
Theorem safe_name_is_safe s :
  safe_string (safe_name s)
  /\ String.length (safe_name s) <= String.length s.
Proof. apply safe_name_from_safe. Qed.

(** X2: [safe_name] returns its argument unchanged exactly when the
    argument is already made of safe characters; in particular applying it
    twice is the same as applying it once. *)
Theorem safe_name_idempotent s :
  (safe_name s = s <-> safe_string s)
  /\ safe_name (safe_name s) = safe_name s.
Proof.
  split.
  - split.
    + intros <-. apply safe_name_is_safe.
    + apply safe_name_from_fixed.
  - apply safe_name_from_fixed, safe_name_is_safe.
Qed.

Lemma string_length_app (s t : string) :
  String.length (s +:+ t) = String.length s + String.length t.
Proof. induction s as [|c s IH]; simpl; [done|]. by rewrite IH. Qed.

Lemma string_app_inj_r (t s1 s2 : string) : s1 +:+ t = s2 +:+ t -> s1 = s2.
Proof.
  revert s2. induction s1 as [|c s1 IH]; intros [|d s2] H; simpl in *.
  - done.
  - apply (f_equal String.length) in H.
    rewrite ?string_length_app in H. simpl in H.
    rewrite ?string_length_app in H. lia.
  - apply (f_equal String.length) in H.
    rewrite ?string_length_app in H. simpl in H.
    rewrite ?string_length_app in H. lia.
  - injection H as -> H. f_equal. by apply IH.
Qed.

(** X3: two calendars are given the same state file exactly when
    [safe_name] maps their ids to the same name, which does happen for
    distinct ids: the ids [a@b] and [a#b] share one state file. *)
Theorem state_path_shared :
  (forall c1 c2, state_path c1 = state_path c2 <-> safe_name c1 = safe_name c2)
  /\ "a@b" <> "a#b" /\ state_path "a@b" = state_path "a#b".
Proof.
  split; [|split; [discriminate|reflexivity]].
  intros c1 c2. unfold state_path. split; [|by intros ->].
  intros H. apply (inj (String.app STATE_DIR)) in H.
  apply (inj (String.app "/state_")) in H.
  by apply string_app_inj_r in H.
Qed.

(** ** More on classification *)

Lemma last_op_app l1 l2 i :
  last_op (l1 ++ l2) i =
  match last_op l2 i with
  | Some v => Some v
  | None => last_op l1 i
  end.
Proof.
  induction l1 as [|ev l1 IH]; simpl.
  - by destruct (last_op l2 i).
  - rewrite IH. by destruct (last_op l2 i).
Qed.

(** X4: within a run of items the last item with a given id decides
    what the map holds for it (nothing if it is cancelled, its etag
    otherwise), and the ids that no item carries keep what they held. *)
Theorem items_last_write_wins cal evs l i :
  (i ∉ ev_id <$> l -> (process_items cal evs l).1 !! i = evs !! i)
  /\ (forall l1 ev l2,
        l = l1 ++ ev :: l2 -> ev_id ev = i -> i ∉ ev_id <$> l2 ->
        (process_items cal evs l).1 !! i
        = if decide (cancelled ev) then None else Some (ev_etag ev)).
Proof.
  split.
  - intros Hni. by rewrite process_items_lookup, last_op_not_in.
  - intros l1 ev l2 -> Hi Hni.
    rewrite process_items_lookup, last_op_app. simpl.
    rewrite (last_op_not_in l2 i Hni). by rewrite decide_True.
Qed.

Lemma items_last_write_wins_witness :
  (process_items "cal" {[ "a" := Some "e0" ]}
     (items page_twice ++ Event "a" (Some "cancelled") None
        :: [Event "b" None (Some "e9")])).1 !! "a" = None.
Proof.
  apply (proj2 (items_last_write_wins "cal" {[ "a" := Some "e0" ]}
                  (items page_twice ++ Event "a" (Some "cancelled") None
                     :: [Event "b" None (Some "e9")]) "a")
           (items page_twice) (Event "a" (Some "cancelled") None)
           [Event "b" None (Some "e9")]).
  - reflexivity.
  - reflexivity.
  - compute_done.
Defined.

Lemma process_event_silent cal evs ev :
  diff_events (process_event cal evs ev).2 = [] ->
  (process_event cal evs ev).1 = evs.
Proof.
  unfold process_event.
  destruct (decide (ev_status ev = Some "cancelled")) as [Hc|Hc].
  - by destruct (decide (is_Some (evs !! ev_id ev))).
  - destruct (evs !! ev_id ev) as [[prev|]|] eqn:Hl; simpl; [|done..].
    destruct (decide (Some prev = ev_etag ev)) as [He|He]; simpl; [|done].
    intros _. rewrite <- He. by apply insert_id.
Qed.

(** X5: a run of items that prints no Created, Updated or Deleted line
    leaves the items map exactly as it was. *)
Theorem silent_run_keeps_items cal evs l :
  diff_events (process_items cal evs l).2 = [] ->
  (process_items cal evs l).1 = evs.
Proof.
  revert evs. induction l as [|ev l IH]; intros evs; simpl; [done|].
  pose proof (process_event_silent cal evs ev) as H.
  destruct (process_event cal evs ev) as [evs1 t1]. specialize (IH evs1).
  destruct (process_items cal evs1 l) as [evs2 t2]. simpl in *.
  rewrite diff_events_app. intros [H1 H2]%app_eq_nil.
  rewrite (IH H2). by apply H.
Qed.

Lemma silent_run_keeps_items_witness :
  (process_items "cal" {[ "a" := Some "e1" ]}
     [Event "a" None (Some "e1"); Event "z" (Some "cancelled") None]).1
  = {[ "a" := Some "e1" ]}.
Proof.
  apply (silent_run_keeps_items "cal" {[ "a" := Some "e1" ]}
           [Event "a" None (Some "e1"); Event "z" (Some "cancelled") None]).
  reflexivity.
Defined.

Lemma deleted_lines_app t1 t2 :
  deleted_lines (t1 ++ t2) = deleted_lines t1 + deleted_lines t2.
Proof.
  unfold deleted_lines. by rewrite diff_events_app, filter_app, length_app.
Qed.

Lemma process_event_posts cal evs ev :
  posts (process_event cal evs ev).2
  = replicate (length (active [ev]) + deleted_lines (process_event cal evs ev).2)
      cal.
Proof.
  unfold process_event, active, deleted_lines. fold (cancelled ev).
  rewrite filter_cons, filter_nil.
  destruct (decide (cancelled ev)) as [Hc|Hc].
  - rewrite (decide_False (P := ¬ cancelled ev)) by tauto.
    by destruct (decide (is_Some (evs !! ev_id ev))).
  - rewrite (decide_True (P := ¬ cancelled ev)) by done.
    destruct (mjoin (evs !! ev_id ev)) as [prev|]; simpl; [|done].
    by destruct (decide (Some prev = ev_etag ev)).
Qed.

(** X6: a run of items POSTs to the downstream endpoint once for every
    active item, changed or not, and once for every Deleted line it
    prints; each POST names the calendar. *)
Theorem posts_per_item cal evs l :
  posts (process_items cal evs l).2
  = replicate (length (active l) + deleted_lines (process_items cal evs l).2)
      cal.
Proof.
  revert evs. induction l as [|ev l IH]; intros evs; simpl; [done|].
  pose proof (process_event_posts cal evs ev) as H.
  destruct (process_event cal evs ev) as [evs1 t1]. specialize (IH evs1).
  destruct (process_items cal evs1 l) as [evs2 t2]. simpl in *.
  rewrite posts_app, H, IH, deleted_lines_app, <- replicate_add.
  f_equal. change (ev :: l) with ([ev] ++ l). unfold active.
  rewrite filter_app, length_app. lia.
Qed.

(** ** What the push handler keeps *)

Lemma keeps_but_refl p w : keeps_but p w w.
Proof. by repeat split. Qed.

Lemma keeps_but_trans p w1 w2 w3 :
  keeps_but p w1 w2 -> keeps_but p w2 w3 -> keeps_but p w1 w3.
Proof.
  intros (A1 & A2 & A3 & A4 & A5 & A6) (B1 & B2 & B3 & B4 & B5 & B6).
  repeat split; try congruence. intros q Hq. by rewrite B6, A6.
Qed.

Lemma keeps_but_emits p t w : keeps_but p w (emits t w).
Proof. by repeat split. Qed.

Lemma bind_keeps {A B} p (m : M A) (k : A -> M B) :
  (forall w, keeps_but p w (m w).2) ->
  (forall a w, keeps_but p w (k a w).2) ->
  forall w, keeps_but p w (bind m k w).2.
Proof.
  intros Hm Hk w. unfold bind. specialize (Hm w).
  destruct (m w) as [[a|e] w1]; simpl in *; [|done].
  by eapply keeps_but_trans.
Qed.

Lemma save_json_keeps p st w : keeps_but p w (save_json p st w).2.
Proof.
  repeat split; try done. intros q Hq. simpl. by rewrite lookup_insert_ne.
Qed.

Lemma baseline_loop_keeps p cal feed : forall m page w,
  keeps_but p w (baseline_loop cal feed m page w).2.
Proof.
  induction feed as [|[res|e] feed IH]; intros m page w; simpl;
    [by repeat split| |by repeat split].
  destruct (truthy (nextPageToken res)); [|by repeat split].
  eapply keeps_but_trans; [|apply IH]. by repeat split.
Qed.

Lemma ensure_baseline_keeps p cal state w :
  keeps_but p w (ensure_baseline cal state w).2.
Proof.
  unfold ensure_baseline.
  destruct (truthy (syncToken state)); [apply keeps_but_refl|].
  apply baseline_loop_keeps.
Qed.

Lemma sync_loop_keeps cal spath feed : forall state page total w,
  keeps_but spath w (sync_loop cal spath feed state page total w).2.
Proof.
  induction feed as [|[res|e] feed IH]; intros state page total w; simpl;
    [by repeat split| |by repeat split].
  destruct (process_items cal (events state) (items res)) as [evs t].
  destruct (truthy (nextPageToken res)).
  - eapply keeps_but_trans; [|apply IH]. by repeat split.
  - repeat split; try done. intros q Hq. cbn. by rewrite lookup_insert_ne.
Qed.

Lemma incremental_keeps cal spath rs state w :
  keeps_but spath w (incremental cal spath rs state w).2.
Proof.
  unfold incremental.
  pose proof (sync_loop_keeps cal spath (list_feed w) state None 0 w) as H.
  destruct (sync_loop cal spath (list_feed w) state None 0 w)
    as [[[total|[status|]] st] w1]; simpl in *.
  - destruct (total =? 0)%nat; [|done].
    eapply keeps_but_trans; [exact H|]. by repeat split.
  - destruct (status =? 410)%nat.
    + destruct H as (H1 & H2 & H3 & H4 & H5 & H6).
      repeat split; try done. intros q Hq. cbn.
      rewrite lookup_insert_ne by done. by apply H6.
    + eapply keeps_but_trans; [exact H|]. by repeat split.
  - done.
Qed.

(** X7: whatever the request and whatever the provider answers, the
    push handler leaves the channel registry, the feed of watch answers
    and the uuid counter as they were, and the only state record it can
    change is the one of the calendar that the channel id resolves to. *)
Theorem calendar_push_frame channel_id rs w :
  channels_file (calendar_push channel_id rs w).2 = channels_file w
  /\ watch_feed (calendar_push channel_id rs w).2 = watch_feed w
  /\ uuid_count (calendar_push channel_id rs w).2 = uuid_count w
  /\ forall q,
       state_files (calendar_push channel_id rs w).2 !! q
       <> state_files w !! q ->
       exists c meta,
         channel_id = Some c /\ channels_file w !! c = Some meta
         /\ q = state_path (calendar_id meta).
Proof.
  unfold calendar_push. unfold bind at 1. unfold load_channels. cbn.
  destruct (channel_id ≫= (fun c => channels_file w !! c)) as [meta|] eqn:Hch.
  - assert (keeps_but (state_path (calendar_id meta)) w
              ((get_service;;;
                state <- load_json (state_path (calendar_id meta));;
                state0 <- (if truthy (syncToken state) then ret state
                           else (state' <- ensure_baseline (calendar_id meta)
                                              state;;
                                 save_json (state_path (calendar_id meta))
                                   state';;;
                                 ret state'));;
                incremental (calendar_id meta)
                  (state_path (calendar_id meta)) rs state0;;;
                ret (Response 200))%io (emit ELoadChannels w)).2) as Hk.
    { eapply keeps_but_trans; [apply (keeps_but_emits _ [ELoadChannels])|].
      apply bind_keeps.
      { intros w0. unfold get_service.
        destruct (service_ok w0); by repeat split. }
      intros _ w0. apply bind_keeps; [by repeat split|].
      intros state w1. apply bind_keeps.
      { intros w2. destruct (truthy (syncToken state));
          [apply keeps_but_refl|].
        apply bind_keeps; [apply ensure_baseline_keeps|].
        intros st w3. apply bind_keeps; [apply save_json_keeps|].
        intros _ w4. apply keeps_but_refl. }
      intros st w2. apply bind_keeps; [apply incremental_keeps|].
      intros _ w3. apply keeps_but_refl. }
    destruct Hk as (H1 & H2 & H3 & _ & _ & H5).
    split; [done|]. split; [done|]. split; [done|].
    intros q Hq. destruct channel_id as [c|]; [|done]. simpl in Hch.
    exists c, meta. split; [done|]. split; [done|].
    destruct (decide (q = state_path (calendar_id meta))) as [->|Hne];
      [done|].
    by specialize (H5 q Hne).
  - cbn. split; [done|]. split; [done|]. split; [done|]. by intros q [].
Qed.

(** ** Consecutive notifications *)

Lemma truthy_nonempty (c : string) : c <> EmptyString -> truthy (Some c) = true.
Proof. intros Hc. simpl. apply negb_true_iff. by apply String.eqb_neq. Qed.

(** X8: the cursor a push persists is the one the next push presents.
    After a push that runs to its final page and receives a non-empty
    [nextSyncToken], a second push for the same channel lists with that
    token on every page request, classifies against the items the first
    push persisted, and persists the outcome. *)
Theorem cursor_carried ch rs meta state ps1 last1 c1 ps2 last2 rest w :
  channels_file w !! ch = Some meta ->
  service_ok w = true ->
  state_files w !! state_path (calendar_id meta) = Some state ->
  truthy (syncToken state) = true ->
  Forall has_more ps1 -> truthy (nextPageToken last1) = false ->
  nextSyncToken last1 = Some c1 -> c1 <> EmptyString ->
  Forall has_more ps2 -> truthy (nextPageToken last2) = false ->
  list_feed w = (Answer <$> ps1) ++ Answer last1
                  :: (Answer <$> ps2) ++ Answer last2 :: rest ->
  exists w1 w2,
    calendar_push (Some ch) rs w = (Ret (Response 200), w1)
    /\ calendar_push (Some ch) rs w1 = (Ret (Response 200), w2)
    /\ listings (since w1 w2)
       = IncrementalList (calendar_id meta) (Some c1)
           <$> (None :: (nextPageToken <$> ps2))
    /\ state_files w2 !! state_path (calendar_id meta)
       = Some (SyncState
                 (process_items (calendar_id meta)
                    (process_items (calendar_id meta) (events state)
                       (all_items (ps1 ++ [last1]))).1
                    (all_items (ps2 ++ [last2]))).1
                 (match nextSyncToken last2 with
                  | Some c2 => Some c2
                  | None => Some c1
                  end)).
Proof.
  intros Hch Hok Hst Htok Hm1 Hl1 Hc1 Hne Hm2 Hl2 Hfeed.
  set (cal := calendar_id meta). set (spath := state_path cal).
  eexists _, _. split.
  { rewrite (calendar_push_synced rs ch meta state w) by done.
    erewrite (incremental_success _ _ rs ps1 last1); [done..|exact Hfeed]. }
  match goal with
  | |- calendar_push _ _ ?w1 = _ /\ _ =>
      assert (calendar_push (Some ch) rs w1
              = match incremental cal spath rs
                        (SyncState
                           (process_items cal (events state)
                              (all_items (ps1 ++ [last1]))).1 (Some c1))
                        (emits [ELoadChannels; EGetService; ELoadState spath]
                           w1) with
                | (Ret _, w') => (Ret (Response 200), w')
                | (Raise e, w') => (Raise e, w')
                end) as Hpush
  end.
  { apply calendar_push_synced; try done.
    - cbn [state_files set_state_files set_list_feed emits].
      rewrite lookup_insert_eq. unfold next_cursor. by rewrite Hc1.
    - by apply truthy_nonempty. }
  rewrite Hpush.
  erewrite (incremental_success cal spath rs ps2 last2 rest);
    [|done|done|reflexivity].
  split; [reflexivity|].
  split.
  - erewrite since_app;
      [|cbn [trace set_state_files set_list_feed emits];
        rewrite <- ?app_assoc; reflexivity].
    rewrite !listings_app, pages_trace_listings, page_tokens_init.
    simpl.
    destruct (decide (all_items (ps2 ++ [last2]) = [])); simpl;
      by rewrite app_nil_r.
  - cbn [state_files set_state_files set_list_feed emits].
    by rewrite lookup_insert_eq.
Qed.

Lemma cursor_carried_witness :
  exists w1 w2,
    calendar_push (Some "ch0") None
      (example_world [Answer (page_abc (Some "c1")); Answer (page_del_a None)]
         [] stored_a one_channel) = (Ret (Response 200), w1)
    /\ calendar_push (Some "ch0") None w1 = (Ret (Response 200), w2)
    /\ listings (since w1 w2) = [IncrementalList "cal" (Some "c1") None]
    /\ state_files w2 !! state_path "cal"
       = Some (SyncState {[ "b" := Some "e1" ]} (Some "c1")).
Proof.
  destruct (cursor_carried "ch0" None (ChannelInfo "cal" "res0" None) state_a
              [] (page_abc (Some "c1")) "c1" [] (page_del_a None) []
              (example_world
                 [Answer (page_abc (Some "c1")); Answer (page_del_a None)]
                 [] stored_a one_channel))
    as (w1 & w2 & H1 & H2 & H3 & H4);
    [by vm_compute | reflexivity | by vm_compute | reflexivity | constructor
     | reflexivity | reflexivity | discriminate | constructor | reflexivity
     | reflexivity |].
  exists w1, w2. split; [exact H1|]. split; [exact H2|]. split; [exact H3|].
  etrans; [exact H4|]. vm_compute. reflexivity.
Defined.

(** X9: after a push that met a 410, the next push for the same channel
    re-seeds: it lists the baseline first, then lists incrementally with
    the baseline's cursor.  The items it persists are built from the
    baseline listing alone (what was stored before is dropped), and the
    only diff lines it prints are those of the incremental pages against
    that baseline. *)
Theorem gone_then_reseeded ch rs meta state bps blast ps last rest w :
  channels_file w !! ch = Some meta ->
  service_ok w = true ->
  state_files w !! state_path (calendar_id meta) = Some state ->
  truthy (syncToken state) = true ->
  Forall has_more bps -> truthy (nextPageToken blast) = false ->
  Forall has_more ps -> truthy (nextPageToken last) = false ->
  list_feed w = Fails (HttpError 410)
                  :: (Answer <$> bps) ++ Answer blast
                  :: (Answer <$> ps) ++ Answer last :: rest ->
  let cal := calendar_id meta in
  let seeded := foldl baseline_item ∅ (all_items (bps ++ [blast])) in
  exists w1 w2,
    calendar_push (Some ch) rs w = (Ret (Response 200), w1)
    /\ state_files w1 !! state_path cal = Some (SyncState (events state) None)
    /\ calendar_push (Some ch) rs w1 = (Ret (Response 200), w2)
    /\ listings (since w1 w2)
       = (BaselineList cal <$> (None :: (nextPageToken <$> bps)))
         ++ (IncrementalList cal (nextSyncToken blast)
               <$> (None :: (nextPageToken <$> ps)))
    /\ diff_events (since w1 w2)
       = diff_events (process_items cal seeded (all_items (ps ++ [last]))).2
    /\ state_files w2 !! state_path cal
       = Some (SyncState
                 (process_items cal seeded (all_items (ps ++ [last]))).1
                 (match nextSyncToken last with
                  | Some c => Some c
                  | None => nextSyncToken blast
                  end)).
Proof.
  intros Hch Hok Hst Htok Hbm Hbl Hm Hl Hfeed cal seeded.
  set (spath := state_path cal).
  eexists _, _. split.
  { rewrite (calendar_push_synced rs ch meta state w) by done.
    erewrite (incremental_gone _ _ rs [] _ state); [done|constructor|].
    exact Hfeed. }
  split.
  { cbn [state_files set_state_files set_list_feed emits].
    by rewrite lookup_insert_eq. }
  match goal with
  | |- calendar_push _ _ ?w1 = _ /\ _ =>
      pose proof (calendar_push_bootstrapped rs ch meta bps blast
                    ((Answer <$> ps) ++ Answer last :: rest) w1) as Hpush
  end.
  cbv zeta in Hpush. rewrite Hpush; clear Hpush; [|done..| |done|done|done].
  2: { cbn [state_files set_state_files set_list_feed emits].
       by rewrite lookup_insert_eq. }
  fold cal spath seeded.
  erewrite (incremental_success cal spath rs ps last rest);
    [|done|done|reflexivity].
  split; [reflexivity|].
  cbn [events syncToken].
  erewrite since_app;
    [|cbn [trace set_state_files set_list_feed emits];
      rewrite <- ?app_assoc; reflexivity].
  rewrite !listings_app, !diff_events_app.
  rewrite baseline_trace_listings, pages_trace_listings, !page_tokens_init.
  rewrite pages_trace_diff_events.
  destruct (baseline_trace_quiet cal (bps ++ [blast]) None) as (-> & _ & _).
  split; [|split].
  - simpl. destruct (decide (all_items (ps ++ [last]) = [])); simpl;
      by rewrite app_nil_r.
  - simpl. destruct (decide (all_items (ps ++ [last]) = [])); simpl;
      by rewrite app_nil_r.
  - cbn [state_files set_state_files set_list_feed emits].
    by rewrite lookup_insert_eq.
Qed.

Lemma gone_then_reseeded_witness :
  exists w1 w2,
    calendar_push (Some "ch0") None
      (example_world [Fails (HttpError 410); Answer baseline_page1;
                      Answer baseline_page2; Answer (page_del_a None)]
         [] stored_a one_channel) = (Ret (Response 200), w1)
    /\ state_files w1 !! state_path "cal" = Some (SyncState (events state_a) None)
    /\ calendar_push (Some "ch0") None w1 = (Ret (Response 200), w2)
    /\ listings (since w1 w2)
       = [BaselineList "cal" None; BaselineList "cal" (Some "p2");
          IncrementalList "cal" (Some "c1") None]
    /\ diff_events (since w1 w2) = [(Deleted, "a")]
    /\ state_files w2 !! state_path "cal"
       = Some (SyncState {[ "b" := Some "e2" ]} (Some "c1")).
Proof.
  destruct (gone_then_reseeded "ch0" None (ChannelInfo "cal" "res0" None)
              state_a [baseline_page1] baseline_page2 [] (page_del_a None) []
              (example_world [Fails (HttpError 410); Answer baseline_page1;
                              Answer baseline_page2; Answer (page_del_a None)]
                 [] stored_a one_channel))
    as (w1 & w2 & H1 & H2 & H3 & H4 & H5 & H6);
    [by vm_compute | reflexivity | by vm_compute | reflexivity
     | by repeat constructor | reflexivity | constructor | reflexivity
     | reflexivity |].
  exists w1, w2. split; [exact H1|]. split; [exact H2|]. split; [exact H3|].
  split; [exact H4|].
  split; [etrans; [exact H5|]; vm_compute; reflexivity|].
  etrans; [exact H6|]. vm_compute. reflexivity.
Defined.

(** X10: when the push handler has to seed the baseline itself and a
    baseline listing fails, the exception leaves the handler whatever its
    type, an [HttpError] included; no state record is written and nothing
    is printed or posted. *)
Theorem push_baseline_failure ch rs meta ps e rest w :
  channels_file w !! ch = Some meta ->
  service_ok w = true ->
  truthy (syncToken (default default_state
                       (state_files w !! state_path (calendar_id meta))))
  = false ->
  Forall has_more ps ->
  list_feed w = (Answer <$> ps) ++ Fails e :: rest ->
  exists w',
    calendar_push (Some ch) rs w = (Raise e, w')
    /\ state_files w' = state_files w
    /\ saves (since w w') = []
    /\ diff_events (since w w') = []
    /\ posts (since w w') = []
    /\ listings (since w w')
       = BaselineList (calendar_id meta) <$> (None :: (nextPageToken <$> ps)).
Proof.
  intros Hch Hok Htok Hmore Hfeed.
  unfold calendar_push, bind, load_channels, get_service, load_json, ret.
  cbn. rewrite Hch. cbn. rewrite Hok. cbn. rewrite Htok.
  erewrite (ensure_baseline_fails _ ps e rest); [|done|done|exact Hfeed].
  eexists. split; [reflexivity|].
  cbn [state_files set_list_feed emits emit].
  split; [done|].
  erewrite since_app;
    [|cbn [trace set_list_feed emits emit]; rewrite <- ?app_assoc; reflexivity].
  destruct (baseline_trace_quiet (calendar_id meta) ps None) as (Hd & Hp & Hs).
  rewrite !saves_app, !diff_events_app, !posts_app, !listings_app.
  rewrite Hd, Hp, Hs, baseline_trace_listings. simpl.
  do 3 (split; [done|]).
  change (BaselineList (calendar_id meta) None
          :: (BaselineList (calendar_id meta) <$> (nextPageToken <$> ps)))
    with (BaselineList (calendar_id meta)
            <$> (None :: (nextPageToken <$> ps))).
  by rewrite <- (page_tokens_snoc ps None) at 2; rewrite fmap_snoc.
Qed.

Lemma push_baseline_failure_witness :
  exists w',
    calendar_push (Some "ch0") None
      (example_world [Answer baseline_page1; Fails (HttpError 403)] []
         ∅ one_channel) = (Raise (HttpError 403), w')
    /\ state_files w' = ∅
    /\ saves (since (example_world [Answer baseline_page1;
                                    Fails (HttpError 403)] [] ∅ one_channel)
                w') = [].
Proof.
  destruct (push_baseline_failure "ch0" None (ChannelInfo "cal" "res0" None)
              [baseline_page1] (HttpError 403) []
              (example_world [Answer baseline_page1; Fails (HttpError 403)] []
                 ∅ one_channel))
    as (w' & H1 & H2 & H3 & _);
    [by vm_compute | reflexivity | by vm_compute | by repeat constructor
     | reflexivity |].
  exists w'. split; [exact H1|]. split; [exact H2|exact H3].
Defined.

(** ** Deregistration *)

Lemma stop_loop_result stop l : forall channels stopped errors,
  stop_loop stop l channels stopped errors
  = (foldl (fun m p => delete p.1 m) channels l,
     stopped ++ ((fun p => Started p.1 p.2) <$> l),
     errors ++ omap (fun p => match stop p.1 (resource_id p.2) with
                              | Answer _ => None
                              | Fails e => Some (p.1, e)
                              end) l).
Proof.
  induction l as [|[c meta] l IH]; intros channels stopped errors; simpl.
  - by rewrite !app_nil_r.
  - rewrite IH. destruct (stop c (resource_id meta)); simpl;
      by rewrite <- ?app_assoc.
Qed.

Lemma delete_all_lookup (l : list (string * channel_info)) :
  forall (m : gmap string channel_info) i,
    foldl (fun m p => delete p.1 m) m l !! i
    = if decide (i ∈ l.*1) then None else m !! i.
Proof.
  induction l as [|[c meta] l IH]; intros m i; simpl; [done|].
  rewrite IH. destruct (decide (i ∈ l.*1)) as [Hin|Hni].
  - rewrite decide_True; [done|]. by right.
  - destruct (decide (c = i)) as [->|Hne].
    + rewrite decide_True by left. apply lookup_delete_eq.
    + rewrite decide_False.
      * by apply lookup_delete_ne.
      * intros [?|?]%elem_of_cons; [congruence|done].
Qed.

Lemma delete_all_empty (m : gmap string channel_info) :
  foldl (fun m p => delete p.1 m) m (map_to_list m) = ∅.
Proof.
  apply map_eq. intros i. rewrite delete_all_lookup, lookup_empty.
  destruct (decide (i ∈ (map_to_list m).*1)) as [Hin|Hni]; [done|].
  apply eq_None_not_Some. intros [x Hx]. apply Hni.
  apply list_elem_of_fmap. exists (i, x). split; [done|].
  by apply elem_of_map_to_list.
Qed.

(** X11: [stop_watch] with an empty registry answers "no active
    channels" and does nothing else.  With channels in the registry and
    working credentials it always succeeds, whatever the provider answers
    to the stop requests: it reports every registered channel, prints one
    error line for each channel whose stop request failed, and saves an
    empty registry; no state record is touched.  When the credentials
    cannot be loaded it raises and the registry is left as it was. *)
Theorem stop_watch_clears stop w :
  (channels_file w = ∅ ->
   stop_watch stop w = (Ret (NoActiveChannels, []), emit ELoadChannels w))
  /\ (channels_file w <> ∅ -> service_ok w = true ->
      exists stopped errors w',
        stop_watch stop w = (Ret (StoppedChannels stopped, errors), w')
        /\ channels_file w' = ∅
        /\ state_files w' = state_files w
        /\ since w w' = [ELoadChannels; EGetService; ESaveChannels ∅]
        /\ (fun s => (st_channel_id s, st_info s)) <$> stopped
           ≡ₚ map_to_list (channels_file w)
        /\ forall c e,
             (c, e) ∈ errors <->
             exists meta, channels_file w !! c = Some meta
                          /\ stop c (resource_id meta) = Fails e)
  /\ (channels_file w <> ∅ -> service_ok w = false ->
      exists w',
        stop_watch stop w = (Raise OtherError, w')
        /\ channels_file w' = channels_file w
        /\ state_files w' = state_files w).
Proof.
  unfold stop_watch, bind, load_channels, get_service, save_channels, ret.
  cbn. split; [|split].
  - intros ->. by rewrite bool_decide_eq_true_2.
  - intros Hne Hok. rewrite bool_decide_eq_false_2 by done. cbn.
    rewrite Hok. cbn. rewrite stop_loop_result. cbn.
    rewrite delete_all_empty. eexists _, _, _. split; [reflexivity|].
    cbn. split; [done|]. split; [done|].
    split; [apply since_app; cbn; by rewrite <- !app_assoc|]. split.
    + rewrite <- list_fmap_compose.
      rewrite (list_fmap_ext _ id); [by rewrite list_fmap_id|].
      by intros ? [].
    + intros c e. rewrite list_elem_of_omap. split.
      * intros ([c' meta] & Hin & Hsome). simpl in Hsome.
        apply elem_of_map_to_list in Hin.
        destruct (stop c' (resource_id meta)) eqn:Hs; [done|].
        injection Hsome as -> ->. eauto.
      * intros (meta & Hl & Hs). exists (c, meta). split.
        -- by apply elem_of_map_to_list.
        -- simpl. by rewrite Hs.
  - intros Hne Hok. rewrite bool_decide_eq_false_2 by done. cbn.
    rewrite Hok. by eexists.
Qed.

Lemma stop_watch_clears_witness :
  exists stopped errors w',
    stop_watch stop_refusing_ch0
      (example_world [] [] stored_a two_channels)
    = (Ret (StoppedChannels stopped, errors), w')
    /\ channels_file w' = ∅
    /\ state_files w' = stored_a
    /\ (fun s => (st_channel_id s, st_info s)) <$> stopped
       ≡ₚ map_to_list two_channels
    /\ ("ch0", HttpError 404) ∈ errors.
Proof.
  destruct (proj1 (proj2 (stop_watch_clears stop_refusing_ch0
                            (example_world [] [] stored_a two_channels))))
    as (stopped & errors & w' & H1 & H2 & H3 & H4 & H5 & H6);
    [by vm_compute | reflexivity |].
  exists stopped, errors, w'. repeat split; try assumption.
  apply H6. exists (ChannelInfo "c1" "res1" None).
  split; [by vm_compute | reflexivity].
Defined.

(** X12: once [stop_watch] has run, a push is answered 200 without any
    work, whatever channel id it carries: the registry is empty, so the
    handler reads it and returns; no state record is read or written and
    the provider is not called. *)
Theorem push_after_stop stop channel_id rs w :
  channels_file w <> ∅ -> service_ok w = true ->
  exists r w1 w2,
    stop_watch stop w = (Ret r, w1)
    /\ calendar_push channel_id rs w1 = (Ret (Response 200), w2)
    /\ since w1 w2 = [ELoadChannels]
    /\ state_files w2 = state_files w
    /\ list_feed w2 = list_feed w.
Proof.
  intros Hne Hok.
  destruct (proj1 (proj2 (stop_watch_clears stop w)) Hne Hok)
    as (stopped & errors & w1 & H1 & H2 & H3 & H4 & _).
  exists (StoppedChannels stopped, errors), w1, (emit ELoadChannels w1).
  split; [done|]. split.
  - apply calendar_push_unknown. rewrite H2.
    destruct channel_id; [apply lookup_empty|done].
  - split; [by apply since_app|]. split; [done|].
    revert H1. unfold stop_watch, bind, load_channels, get_service,
      save_channels, ret. cbn.
    rewrite bool_decide_eq_false_2 by done. cbn. rewrite Hok. cbn.
    intros H. by simplify_eq.
Qed.

Lemma push_after_stop_witness :
  exists r w1 w2,
    stop_watch stop_refusing_ch0
      (example_world [Answer (page_abc None)] [] stored_a one_channel)
    = (Ret r, w1)
    /\ calendar_push (Some "ch0") (Some "exists") w1 = (Ret (Response 200), w2)
    /\ since w1 w2 = [ELoadChannels]
    /\ state_files w2 = stored_a
    /\ list_feed w2 = [Answer (page_abc None)].
Proof.
  apply (push_after_stop stop_refusing_ch0 (Some "ch0") (Some "exists")
           (example_world [Answer (page_abc None)] [] stored_a one_channel)).
  - by vm_compute.
  - reflexivity.
Defined.

(** ** More on registration *)

(** X13: registering a calendar whose state record already holds a
    cursor makes no listing request: the record is read and written back
    unchanged, and a fresh channel, named by the next uuid, is opened with
    the provider. *)
Theorem register_baselined address cal state wr f w :
  state_files w !! state_path cal = Some state ->
  truthy (syncToken state) = true ->
  watch_feed w = Answer wr :: f ->
  exists w',
    register_calendar address cal w
    = (Ret (Started (uuid_source w (uuid_count w))
              (ChannelInfo cal (resourceId wr) (watch_expiration wr))), w')
    /\ state_files w' = state_files w
    /\ list_feed w' = list_feed w
    /\ uuid_count w' = S (uuid_count w)
    /\ since w w'
       = [ELoadState (state_path cal); ESaveState (state_path cal) state;
          EWatch cal (uuid_source w (uuid_count w)) address].
Proof.
  intros Hst Htok Hfeed.
  unfold register_calendar, bind, load_json, ensure_baseline, save_json,
    uuid4, watch, ret.
  cbn. rewrite Hst. cbn. rewrite Htok. cbn. rewrite Hfeed.
  eexists. split; [reflexivity|]. cbn.
  split; [by apply insert_id|]. split; [done|]. split; [done|].
  apply since_app. cbn. by rewrite <- !app_assoc.
Qed.

Lemma register_baselined_witness :
  exists w',
    register_calendar "https://relay.example/calendar/push" "cal"
      (example_world [] [Answer (WatchResult "res9" None)] stored_a one_channel)
    = (Ret (Started "ch0" (ChannelInfo "cal" "res9" None)), w')
    /\ state_files w' = stored_a
    /\ list_feed w' = []
    /\ uuid_count w' = 1.
Proof.
  destruct (register_baselined "https://relay.example/calendar/push" "cal"
              state_a (WatchResult "res9" None) []
              (example_world [] [Answer (WatchResult "res9" None)]
                 stored_a one_channel))
    as (w' & H1 & H2 & H3 & H4 & _);
    [by vm_compute | reflexivity | reflexivity |].
  exists w'. repeat split; assumption.
Defined.

Lemma baseline_loop_trace cal feed : forall m page w,
  trace w `prefix_of` trace (baseline_loop cal feed m page w).2.
Proof.
  induction feed as [|[res|e] feed IH]; intros m page w; simpl;
    [by eexists| |by eexists].
  destruct (truthy (nextPageToken res)); [|by eexists].
  etrans; [|apply IH]. by eexists.
Qed.

(** What handling one calendar does to the uuid generator and to the
    trace. *)
Lemma register_calendar_effects address cal w r w' :
  register_calendar address cal w = (r, w') ->
  uuid_source w' = uuid_source w
  /\ exists t,
       trace w' = trace w ++ t
       /\ forall s, r = Ret s ->
            st_channel_id s = uuid_source w (uuid_count w)
            /\ uuid_count w' = S (uuid_count w)
            /\ EWatch cal (st_channel_id s) address ∈ t.
Proof.
  unfold register_calendar, bind, load_json, save_json, uuid4, watch, ret.
  cbn.
  set (st0 := default default_state (state_files w !! state_path cal)).
  set (w0 := emit (ELoadState (state_path cal)) w).
  pose proof (ensure_baseline_keeps (state_path cal) cal st0 w0)
    as (_ & _ & Hcount & _ & Hsrc & _).
  assert (trace w0 `prefix_of` trace (ensure_baseline cal st0 w0).2) as Htr.
  { unfold ensure_baseline. destruct (truthy (syncToken st0)); [done|].
    apply baseline_loop_trace. }
  destruct (ensure_baseline cal st0 w0) as [[st|e] w1]; cbn in *.
  - destruct Htr as [t Ht].
    destruct (watch_feed w1) as [|[wr|e] f]; cbn; intros [= <- <-]; cbn;
      (split; [done|]); rewrite Ht;
      eexists ([ELoadState (state_path cal)] ++ t ++ [_; _]);
      (split; [by rewrite <- !app_assoc|]); intros s Hs; [done| |done].
    injection Hs as <-. cbn. rewrite Hsrc, Hcount.
    split; [done|]. split; [done|]. set_solver.
  - intros [= <- <-]. split; [done|]. destruct Htr as [t ->].
    exists ([ELoadState (state_path cal)] ++ t).
    split; [by rewrite <- !app_assoc|]. by intros s [=].
Qed.

Lemma registers_effects address cals w ss w' :
  registers address cals w ss w' ->
  uuid_source w' = uuid_source w
  /\ uuid_count w' = uuid_count w + length ss
  /\ st_channel_id <$> ss
     = (fun k => uuid_source w (uuid_count w + k)) <$> seq 0 (length ss)
  /\ exists t,
       trace w' = trace w ++ t
       /\ forall s, s ∈ ss ->
            EWatch (calendar_id (st_info s)) (st_channel_id s) address ∈ t.
Proof.
  induction 1 as [w|cal cals w s w1 ss w2 Hreg Hrest (IH1 & IH2 & IH3 & IH4)].
  - split; [done|]. split; [simpl; lia|]. split; [done|].
    exists []. split; [by rewrite app_nil_r|].
    intros s Hs. by apply elem_of_nil in Hs.
  - destruct (register_calendar_effects _ _ _ _ _ Hreg)
      as (H1 & t1 & Ht1 & H3).
    destruct (H3 s eq_refl) as (H4 & H5 & H6).
    destruct (register_calendar_channels _ _ _ _ _ Hreg) as [_ Hcal].
    destruct IH4 as (t2 & Ht2 & Hin2).
    split; [congruence|]. split; [simpl; lia|]. split.
    + rewrite fmap_cons. cbn [length seq]. rewrite fmap_cons.
      rewrite Nat.add_0_r, H4. f_equal.
      rewrite IH3, <- fmap_S_seq, <- list_fmap_compose.
      apply list_fmap_ext. intros _ k _. simpl. rewrite H1, H5. f_equal. lia.
    + exists (t1 ++ t2). split; [by rewrite Ht2, Ht1, app_assoc|].
      intros s' [->|Hin]%elem_of_cons; apply elem_of_app.
      * left. by rewrite (Hcal s eq_refl).
      * right. by apply Hin2.
Qed.

Lemma init_loop_ret_inv address cals : forall channels started w r w',
  init_loop address cals channels started w = (Ret r, w') ->
  exists ss,
    registers address cals w ss w'
    /\ r = (record_channels channels ss, started ++ ss).
Proof.
  induction cals as [|cal cals IH]; intros channels started w r w'; simpl.
  - intros [= <- <-]. exists []. split; [constructor|].
    by rewrite app_nil_r.
  - unfold bind.
    destruct (register_calendar address cal w) as [[s|e] w1] eqn:Hreg; [|done].
    intros Hloop. apply IH in Hloop as (ss & Hregs & ->).
    exists (s :: ss). split; [by econstructor|].
    by rewrite <- app_assoc.
Qed.

Lemma record_channels_lookup ss : forall channels,
  (forall c, c ∉ st_channel_id <$> ss ->
             record_channels channels ss !! c = channels !! c)
  /\ (NoDup (st_channel_id <$> ss) ->
      forall s, s ∈ ss ->
                record_channels channels ss !! st_channel_id s
                = Some (st_info s)).
Proof.
  induction ss as [|s0 ss IH]; intros channels; simpl.
  - split; [done|]. intros _ s Hs. by apply elem_of_nil in Hs.
  - destruct (IH (<[st_channel_id s0 := st_info s0]> channels)) as [IH1 IH2].
    split.
    + intros c [Hne Hni]%not_elem_of_cons.
      unfold record_channels in *. simpl. rewrite IH1 by done.
      by rewrite lookup_insert_ne.
    + intros [Hni Hnd]%NoDup_cons s [->|Hin]%elem_of_cons.
      * unfold record_channels in *. simpl. rewrite IH1 by done.
        apply lookup_insert_eq.
      * by apply IH2.
Qed.

Lemma init_watch_started cfg w ss w' :
  init_watch cfg w = (Ret (JSONStarted ss), w') ->
  exists address w1,
    WEBHOOK_ADDRESS cfg = Some address
    /\ registers address (CALENDAR_IDS cfg)
         (emit ELoadChannels (emit EGetService (emit EMakeDirs w))) ss w1
    /\ w' = emit (ESaveChannels (record_channels (channels_file w) ss))
              (set_channels_file (record_channels (channels_file w) ss) w1).
Proof.
  unfold init_watch.
  destruct (WEBHOOK_ADDRESS cfg) as [address|] eqn:Haddr; [|done].
  destruct (truthy (Some address)); [|done].
  destruct (bool_decide (CALENDAR_IDS cfg = [])); [done|].
  cbn [negb default from_option].
  unfold bind, ensure_dirs, tell, get_service, load_channels, save_channels,
    ret.
  cbn. destruct (service_ok w); [|done].
  match goal with
  | |- context [init_loop ?a ?c ?ch ?st ?w0] =>
      destruct (init_loop a c ch st w0) as [[r|e] w1] eqn:Hloop; [|done]
  end.
  apply init_loop_ret_inv in Hloop as (ss' & Hregs & ->).
  cbn. intros [= <- <-].
  by exists address, w1.
Qed.

(** X14: when [init_watch] reports started channels, their ids are the
    next uuids of the generator, in order; the registry it saves agrees
    with the previous one on every other id and, when the new ids are
    pairwise distinct, resolves each new id to the channel reported for
    it. *)
Theorem init_watch_registry cfg w ss w' :
  init_watch cfg w = (Ret (JSONStarted ss), w') ->
  st_channel_id <$> ss
  = (fun k => uuid_source w (uuid_count w + k)) <$> seq 0 (length ss)
  /\ (forall c, c ∉ st_channel_id <$> ss ->
                channels_file w' !! c = channels_file w !! c)
  /\ (NoDup (st_channel_id <$> ss) ->
      forall s, s ∈ ss -> channels_file w' !! st_channel_id s = Some (st_info s)).
Proof.
  intros (address & w1 & Haddr & Hregs & ->)%init_watch_started.
  destruct (registers_effects _ _ _ _ _ Hregs) as (_ & _ & Hids & _).
  split; [exact Hids|]. cbn.
  apply record_channels_lookup.
Qed.

Lemma init_watch_registry_witness :
  let w := example_world [Answer baseline_page2; Answer baseline_page2]
             [Answer (WatchResult "res1" None);
              Answer (WatchResult "res2" None)] ∅ ∅ in
  exists ss w',
    init_watch two_calendars w = (Ret (JSONStarted ss), w')
    /\ st_channel_id <$> ss = ["ch0"; "ch1"]
    /\ channels_file w' !! "ch1" = Some (ChannelInfo "c2" "res2" None)
    /\ channels_file w' !! "other" = None.
Proof.
  intros w.
  destruct (init_watch two_calendars w) as [[[c|m c|ss]|e] w'] eqn:Hrun;
    try (by vm_compute in Hrun).
  destruct (init_watch_registry two_calendars w ss w' Hrun) as (H1 & H2 & H3).
  assert (ss = [Started "ch0" (ChannelInfo "c1" "res1" None);
                Started "ch1" (ChannelInfo "c2" "res2" None)]) as Hss.
  { vm_compute in Hrun. by simplify_eq. }
  exists ss, w'. split; [done|]. rewrite Hss in H1, H2, H3.
  split; [by rewrite Hss|].
  split.
  - apply (H3 ltac:(compute_done)
             (Started "ch1" (ChannelInfo "c2" "res2" None))).
    by repeat constructor.
  - rewrite H2; [by vm_compute|]. compute_done.
Defined.

Lemma init_watch_configured cfg address w :
  WEBHOOK_ADDRESS cfg = Some address -> address <> EmptyString ->
  CALENDAR_IDS cfg <> [] -> service_ok w = true ->
  init_watch cfg w
  = bind (init_loop address (CALENDAR_IDS cfg) (channels_file w) [])
      (fun r => bind (save_channels r.1) (fun _ => ret (JSONStarted r.2)))
      (emits [EMakeDirs; EGetService; ELoadChannels] w).
Proof.
  intros Haddr Hne Hcals Hok. unfold init_watch.
  rewrite Haddr, (truthy_nonempty address Hne). simpl.
  rewrite bool_decide_eq_false_2 by done.
  unfold bind at 1. unfold ensure_dirs, tell.
  unfold bind at 1. unfold get_service. cbn. rewrite Hok.
  unfold bind at 1. unfold load_channels. cbn.
  f_equal. world_eq.
Qed.

(** X15: when registration is cut short at some calendar, the calendars
    handled before it have had their watch channels opened with the
    provider during this call, but none of them is in the registry: a push
    that carries the id of such a channel (an id the registry did not hold
    before) is answered 200 and ignored. *)
Theorem aborted_registration_orphans cfg address rs w pre cal post ss w1 e w2 :
  WEBHOOK_ADDRESS cfg = Some address -> address <> EmptyString ->
  service_ok w = true ->
  CALENDAR_IDS cfg = pre ++ cal :: post ->
  registers address pre
    (emits [EMakeDirs; EGetService; ELoadChannels] w) ss w1 ->
  register_calendar address cal w1 = (Raise e, w2) ->
  init_watch cfg w = (Raise e, w2)
  /\ forall s, s ∈ ss ->
       EWatch (calendar_id (st_info s)) (st_channel_id s) address
         ∈ since w w2
       /\ (channels_file w !! st_channel_id s = None ->
           calendar_push (Some (st_channel_id s)) rs w2
           = (Ret (Response 200), emit ELoadChannels w2)).
Proof.
  intros Haddr Hne Hok Hsplit Hregs Hfail. split.
  - rewrite (init_watch_configured cfg address w) by
      (try done; rewrite Hsplit; by destruct pre).
    rewrite Hsplit. unfold bind at 1.
    by rewrite (init_loop_aborts address pre _ ss w1 Hregs cal post e w2 _ _
                  Hfail).
  - intros s Hs.
    destruct (registers_effects _ _ _ _ _ Hregs) as (_ & _ & _ & t1 & Ht1 & Hin).
    destruct (register_calendar_effects _ _ _ _ _ Hfail) as (_ & t2 & Ht2 & _).
    destruct (registers_channels _ _ _ _ _ Hregs) as [Hch1 _].
    destruct (register_calendar_channels _ _ _ _ _ Hfail) as [Hch2 _].
    split.
    + rewrite (since_app w w2
                 ([EMakeDirs; EGetService; ELoadChannels] ++ t1 ++ t2)).
      * apply elem_of_app. right. apply elem_of_app. left. by apply Hin.
      * rewrite Ht2, Ht1. cbn. by rewrite <- !app_assoc.
    + intros Hnone. apply calendar_push_unknown. simpl.
      by rewrite Hch2, Hch1.
Qed.

Lemma aborted_registration_orphans_witness :
  let w := example_world [Answer baseline_page2; Answer baseline_page2]
             [Answer (WatchResult "res1" None); Fails (HttpError 403)] ∅ ∅ in
  exists w2,
    init_watch two_calendars w = (Raise (HttpError 403), w2)
    /\ EWatch "c1" "ch0" "https://relay.example/calendar/push" ∈ since w w2
    /\ calendar_push (Some "ch0") None w2
       = (Ret (Response 200), emit ELoadChannels w2).
Proof.
  intros w.
  edestruct (aborted_registration_orphans two_calendars
               "https://relay.example/calendar/push" None w ["c1"] "c2" [])
    as [Heq Hin].
  - reflexivity.
  - discriminate.
  - reflexivity.
  - reflexivity.
  - eapply registers_cons; [vm_compute; reflexivity | apply registers_nil].
  - vm_compute. reflexivity.
  - eexists. split; [exact Heq|].
    pose proof (Hin (Started "ch0" (ChannelInfo "c1" "res1" None))) as H.
    assert (Started "ch0" (ChannelInfo "c1" "res1" None)
              ∈ [Started "ch0" (ChannelInfo "c1" "res1" None)]) as Hel
      by apply list_elem_of_here.
    specialize (H Hel). destruct H as [H1 H2].
    split; [exact H1|]. apply H2. vm_compute. reflexivity.
Defined.

(** ** More on the baseline *)

(** X16: the baseline map holds, for every id, the etag of the last
    item of the listing that carries the id and is not cancelled, and
    nothing for an id that only cancelled items carry: a cancelled entry
    never removes what an active entry of the same listing recorded. *)
Theorem baseline_last_active cal state ps final rest w i :
  truthy (syncToken state) = false ->
  Forall has_more ps ->
  truthy (nextPageToken final) = false ->
  list_feed w = (Answer <$> ps) ++ Answer final :: rest ->
  exists st' w',
    ensure_baseline cal state w = (Ret st', w')
    /\ events st' !! i
       = ev_etag <$> last (filter (fun ev => ¬ cancelled ev /\ ev_id ev = i)
                             (all_items (ps ++ [final]))).
Proof.
  intros Hno Hmore Hlast Hfeed. eexists _, _.
  split; [by apply ensure_baseline_success|]. cbn [events].
  rewrite baseline_items_lookup.
  by destruct (last _).
Qed.

Lemma baseline_last_active_witness :
  exists st' w',
    ensure_baseline "cal" default_state
      (example_world [Answer baseline_page_revoked] [] ∅ ∅) = (Ret st', w')
    /\ events st' !! "a" = Some (Some "e1").
Proof.
  destruct (baseline_last_active "cal" default_state [] baseline_page_revoked
              [] (example_world [Answer baseline_page_revoked] [] ∅ ∅) "a")
    as (st' & w' & H1 & H2);
    [reflexivity | constructor | reflexivity | reflexivity |].
  exists st', w'. split; [exact H1|]. etrans; [exact H2|]. by vm_compute.
Defined.
